(** * The ROLIE feed checks of csaf_checker (cmd/csaf_checker/roliecheck.go)

    A shallow embedding of the TLP label model, the label checker, the
    three-phase ROLIE feed walk [processROLIEFeeds], the service document
    check [serviceCheck] and the slice helpers, followed by the properties
    the design document states about them. *)

From Stdlib Require Import ZArith Lia.
From stdpp Require Import base strings list gmap.

Local Open Scope string_scope.
Local Open Scope list_scope.
Local Open Scope Z_scope.

(** ** Package csaf: labels and feeds *)

(** Modelled from the spec: package csaf is not part of this file's source.
    [csaf.TLPLabel] is a string type; its five constants are the five
    defined sensitivity labels, pairwise distinct. *)
Abbreviation TLPLabel := string.

Definition TLPLabelUnlabeled : TLPLabel := "UNLABELED".
Definition TLPLabelWhite : TLPLabel := "WHITE".
Definition TLPLabelGreen : TLPLabel := "GREEN".
Definition TLPLabelAmber : TLPLabel := "AMBER".
Definition TLPLabelRed : TLPLabel := "RED".

(** Modelled from the spec: [csaf.Feed], a feed of the provider metadata with
    an optional declared label and an optional URL (both are pointers in the
    source, [None] is the nil pointer). *)
Record Feed := mkFeed {
  Summary : string;
  TLPLabel_ : option TLPLabel;
  URL : option string;
}.

(** Modelled from the spec: the ROLIE service document enumerates feed URLs,
    grouped in workspaces and collections. *)
Record ROLIEServiceWorkspaceCollection := mkCollection { HRef : string }.
Record ROLIEServiceWorkspace := mkWorkspace {
  Collection : list ROLIEServiceWorkspaceCollection;
}.
Record ROLIEService := mkService { Workspace : list ROLIEServiceWorkspace }.
Record ROLIEServiceDocument := mkServiceDocument { Service : ROLIEService }.

(** ** Errors and diagnostics *)

(** Go's [error] values: the designated sentinel [errContinue] and every
    other error, told apart by [err != errContinue]. *)
Inductive error :=
  | errContinue
  | errOther (msg : string).

#[global] Instance error_eq_dec : EqDecision error.
Proof. solve_decision. Defined.

Inductive MessageType := InfoType | WarnType | ErrorType.

#[global] Instance MessageType_eq_dec : EqDecision MessageType.
Proof. solve_decision. Defined.

(** An argument handed to a format string. *)
Inductive fmtArg :=
  | ArgStr (s : string)
  | ArgStrs (l : list string)
  | ArgErr (e : error)
  | ArgInt (z : Z).

(** Modelled from the spec: an issue sink ([topicMessages]) collects graded
    messages. Formatting is external, so a message keeps its format string
    and its arguments in call order. *)
Record Message := mkMessage {
  Type_ : MessageType;
  Format : string;
  Args : list fmtArg;
}.

Record topicMessages := mkTopic {
  used : bool;
  messages : list Message;
}.

Definition topic_add (typ : MessageType) (format : string)
    (args : list fmtArg) (m : topicMessages) : topicMessages :=
  mkTopic true (messages m ++ [mkMessage typ format args]).

Definition topic_use (m : topicMessages) : topicMessages :=
  mkTopic true (messages m).

(** ** The label model *)

(** [tlpLevel] returns an inclusion order of TLP colors. *)
Definition tlpLevel (label : TLPLabel) : Z :=
  if String.eqb label TLPLabelWhite then 1
  else if String.eqb label TLPLabelGreen then 2
  else if String.eqb label TLPLabelAmber then 3
  else if String.eqb label TLPLabelRed then 4
  else 0.

(** [tlpLabel] returns the value of a non-nil pointer to a TLPLabel; for a
    nil pointer unlabeled is returned. *)
Definition tlpLabel (label : option TLPLabel) : TLPLabel :=
  match label with
  | Some l => l
  | None => TLPLabelUnlabeled
  end.

(** ** The slice and map helpers *)

(** [containsAllSS] checks if a slice of strings contains a string. *)
Fixpoint containsAllSS (slice : list string) (str : string) : bool :=
  match slice with
  | [] => false
  | e :: rest => if String.eqb e str then true else containsAllSS rest str
  end.

(** One pass of [sameContentsSS]: the elements of [xs] missing in [other]
    are appended to [m] in the order of the loop. *)
Fixpoint missingLoop (other : list string) (m xs : list string)
    : list string :=
  match xs with
  | [] => m
  | e :: rest =>
      if negb (containsAllSS other e)
      then missingLoop other (m ++ [e]) rest
      else missingLoop other m rest
  end.

(** [sameContentsSS] returns two slices of all strings missing in the
    respective other slice. *)
Definition sameContentsSS (slice1 slice2 : list string)
    : list string * list string :=
  let m1 := missingLoop slice2 [] slice1 in
  let m2 := missingLoop slice1 [] slice2 in
  (m1, m2).

(** [containsAllKeys] returns if [m2] contains all keys of [m1]: the loop
    over the keys of [m1] stops with false at the first key missing in
    [m2]. *)
Fixpoint containsAllKeysLoop (keys : list string) (m2 : gset string) : bool :=
  match keys with
  | [] => true
  | k :: rest =>
      if negb (bool_decide (k ∈ m2)) then false
      else containsAllKeysLoop rest m2
  end.

Definition containsAllKeys (m1 m2 : gset string) : bool :=
  containsAllKeysLoop (elements m1) m2.

(** ** External packages and the processor *)

(** Types and pure functions the checks take from outside: net/url, package
    util, package csaf and the HTTP response body. *)
Class Externals := {
  Url : Type;
  AdvisoryFile : Type;
  Body : Type;
  Other : Type;
  url_Parse : string → Url + error;
  url_ResolveReference : Url → Url → Url;
  url_String : Url → string;
  util_BaseURL : Url → string + error;
  makeAbsolute : Url → Url → Url;
  AdvisoryFile_URL : AdvisoryFile → string;
  LoadROLIEServiceDocument : Body → ROLIEServiceDocument + error;
}.

Record Response `{Externals} := mkResponse {
  StatusCode : Z;
  Status : string;
  ResBody : Body;
}.
Arguments mkResponse {_} _ _ _.
Arguments StatusCode {_} _.
Arguments Status {_} _.
Arguments ResBody {_} _.

Definition StatusOK : Z := 200.

(** ** The label checker *)

(** [rolieLabelChecker]: the feed under test and the advisory URLs seen so
    far, by advisory label. A missing key reads as the nil (empty) map. *)
Record rolieLabelChecker := mkChecker {
  feedURL : string;
  feedLabel : TLPLabel;
  advisories : gmap string (gset string);
}.

(** The fields of [processor] the ROLIE checks touch; [other] stands for all
    remaining fields, which only the collaborators use. *)
Record processor `{Externals} := mkProcessor {
  pmdURL : string;
  badProviderMetadata : topicMessages;
  badROLIEfeed : topicMessages;
  badROLIEservice : topicMessages;
  labelChecker : option rolieLabelChecker;
  other : Other;
}.
Arguments mkProcessor {_} _ _ _ _ _ _.
Arguments pmdURL {_} _.
Arguments badProviderMetadata {_} _.
Arguments badROLIEfeed {_} _.
Arguments badROLIEservice {_} _.
Arguments labelChecker {_} _.
Arguments other {_} _.

(** The methods of [processor] defined in other files. Each may change the
    processor; the values are the ones the Go functions return.
    [integrity] stands for the call with [rolieMask] and
    [p.badProviderMetadata.add], [httpGet] for [p.httpClient().Get]. *)
Class Collaborators `{Externals} := {
  checkTLS : string → processor → processor;
  rolieFeedEntries :
    string → processor →
    processor * (option (list AdvisoryFile) * option error);
  integrity :
    list AdvisoryFile → string → processor → processor * option error;
  httpGet : string → processor → processor * (Response + error);
}.

(** ** Control flow: state, early return and panics *)

(** How a piece of code ends: it goes on with a value, the enclosing
    function returns an error, or a nil pointer is dereferenced. *)
Inductive res (A : Type) :=
  | Val (a : A)
  | Fail (e : error)
  | Panic.
Arguments Val {A} a.
Arguments Fail {A} e.
Arguments Panic {A}.

Definition M `{Externals} (A : Type) : Type := processor → processor * res A.

#[global] Instance M_ret `{Externals} : MRet M := λ A a p, (p, Val a).

#[global] Instance M_bind `{Externals} : MBind M := λ A B f m p,
  match m p with
  | (p', Val a) => f a p'
  | (p', Fail e) => (p', Fail e)
  | (p', Panic) => (p', Panic)
  end.

Section Control.
Context `{Externals}.

Definition fail {A} (e : error) : M A := λ p, (p, Fail e).
Definition panic {A} : M A := λ p, (p, Panic).
Definition get : M processor := λ p, (p, Val p).
Definition modify (f : processor → processor) : M unit :=
  λ p, (f p, Val tt).
Definition call {A} (f : processor → processor * A) : M A :=
  λ p, let '(p', a) := f p in (p', Val a).

(** [for _, x := range l { a = body(a, x) }] *)
Fixpoint forM {A B} (body : A → B → M A) (a : A) (l : list B) : M A :=
  match l with
  | [] => mret a
  | x :: rest => a' ← body a x; forM body a' rest
  end.

(** The position of every element of a slice, as [range] yields it. *)
Definition indexed {A} (l : list A) : list (nat * A) := imap pair l.

(** [for _, fs := range feeds { for i := range fs { feed := &fs[i] ... } }]:
    a feed pointer is identified by its position in [feeds]. *)
Definition rangeFeeds {A} (body : A → nat * nat → Feed → M A) (a : A)
    (feeds : list (list Feed)) : M A :=
  forM (λ a '(j, fs),
          forM (λ a '(i, feed), body a (j, i) feed) a (indexed fs))
       a (indexed feeds).

Definition set_badProviderMetadata (t : topicMessages) (p : processor)
    : processor :=
  mkProcessor (pmdURL p) t (badROLIEfeed p) (badROLIEservice p)
    (labelChecker p) (other p).
Definition set_badROLIEfeed (t : topicMessages) (p : processor)
    : processor :=
  mkProcessor (pmdURL p) (badProviderMetadata p) t (badROLIEservice p)
    (labelChecker p) (other p).
Definition set_badROLIEservice (t : topicMessages) (p : processor)
    : processor :=
  mkProcessor (pmdURL p) (badProviderMetadata p) (badROLIEfeed p) t
    (labelChecker p) (other p).
Definition set_labelChecker (ca : option rolieLabelChecker) (p : processor)
    : processor :=
  mkProcessor (pmdURL p) (badProviderMetadata p) (badROLIEfeed p)
    (badROLIEservice p) ca (other p).

Definition pmd_add typ format args : M unit :=
  modify (λ p,
    set_badProviderMetadata
      (topic_add typ format args (badProviderMetadata p)) p).
Definition feed_add typ format args : M unit :=
  modify (λ p,
    set_badROLIEfeed (topic_add typ format args (badROLIEfeed p)) p).
Definition service_add typ format args : M unit :=
  modify (λ p,
    set_badROLIEservice
      (topic_add typ format args (badROLIEservice p)) p).
End Control.

(** ** The checks of roliecheck.go *)

Section Checker.
Context `{Collaborators}.

(** [check] tests if an advisory is in the right TLP color of the currently
    tested feed. The receiver [ca] is changed in place in the source; here
    the changed checker is the value of the call. *)
Definition check (ca : rolieLabelChecker) (advisoryLabel : TLPLabel)
    (advisory : string) : M rolieLabelChecker :=
  let advisoryRank := tlpLevel advisoryLabel in
  let feedRank := tlpLevel (feedLabel ca) in
  let advs :=
    match advisories ca !! advisoryLabel with
    | Some advs => advs
    | None => ∅
    end in
  let ca' :=
    mkChecker (feedURL ca) (feedLabel ca)
      (<[advisoryLabel := {[advisory]} ∪ advs]> (advisories ca)) in
  (if advisoryRank <? feedRank then
     if advisoryRank =? 0 then
       feed_add InfoType "Found unlabeled advisory %q in feed %q."
         [ArgStr advisory; ArgStr (feedURL ca)]
     else
       feed_add WarnType
         "Found advisory %q labled TLP:%s in feed %q (TLP:%s)."
         [ArgStr advisory; ArgStr advisoryLabel;
          ArgStr (feedURL ca); ArgStr (feedLabel ca)]
   else if feedRank <? advisoryRank then
     feed_add ErrorType
       "%s of TLP level %s must not be listed in feed %s of TLP level %s"
       [ArgStr advisory; ArgStr advisoryLabel;
        ArgStr (feedURL ca); ArgStr (feedLabel ca)]
   else mret tt) ;;
  mret ca'.

(** The call [p.labelChecker.check(p, advisoryLabel, advisory)], as the
    integrity walk makes it for every advisory: the receiver is the checker
    the processor points to, so the change of its map shows in the
    processor. With a nil checker the first field access panics. *)
Definition checkCurrent (advisoryLabel : TLPLabel) (advisory : string)
    : M unit :=
  p ← get;
  match labelChecker p with
  | None => panic
  | Some ca =>
      ca' ← check ca advisoryLabel advisory;
      modify (set_labelChecker (Some ca'))
  end.

(** The listings fetched in phase 1, keyed by feed position. A stored nil
    slice is [Some None]; [files == nil] holds for it as for a missing
    key. *)
Definition lookupFiles
    (advisories : gmap (nat * nat) (option (list AdvisoryFile)))
    (feed : nat * nat) : option (list AdvisoryFile) :=
  match advisories !! feed with
  | Some files => files
  | None => None
  end.

Definition invalidFeedURL (u : string) (err : error) : M unit :=
  pmd_add ErrorType "Invalid URL %s in feed: %v." [ArgStr u; ArgErr err].

(** Phase 1: load all advisories urls. *)
Definition phase1_feed (base : Url)
    (advisories : gmap (nat * nat) (option (list AdvisoryFile)))
    (pos : nat * nat) (feed : Feed)
    : M (gmap (nat * nat) (option (list AdvisoryFile))) :=
  match URL feed with
  | None => mret advisories
  | Some u =>
      match url_Parse u with
      | inr err => invalidFeedURL u err ;; mret advisories
      | inl up =>
          let feedBase := url_ResolveReference base up in
          let feedURL := url_String feedBase in
          modify (checkTLS feedURL) ;;
          '(advs, err) ← call (rolieFeedEntries feedURL);
          match err with
          | Some err =>
              if decide (err ≠ errContinue) then fail err
              else mret advisories
          | None => mret (<[pos := advs]> advisories)
          end
      end
  end.

(** Phase 2: check for integrity. *)
Definition phase2_feed (base : Url)
    (advisories : gmap (nat * nat) (option (list AdvisoryFile)))
    (_ : unit) (pos : nat * nat) (feed : Feed) : M unit :=
  match URL feed with
  | None => mret tt
  | Some u =>
      match lookupFiles advisories pos with
      | None => mret tt
      | Some files =>
          match url_Parse u with
          | inr err => invalidFeedURL u err
          | inl up =>
              let feedURL := url_ResolveReference base up in
              match util_BaseURL feedURL with
              | inr err => pmd_add ErrorType "Bad base path: %v" [ArgErr err]
              | inl feedBase =>
                  let label := tlpLabel (TLPLabel_ feed) in
                  modify (set_labelChecker
                    (Some (mkChecker (url_String feedURL) label ∅))) ;;
                  err ← call (integrity files feedBase);
                  match err with
                  | Some err =>
                      if decide (err ≠ errContinue) then fail err
                      else mret tt
                  | None => mret tt
                  end
              end
          end
      end
  end.

(** The local variables of phase 3. *)
Record audit := mkAudit {
  hasSummary : gset string;
  hasUnlabeled : bool;
  hasWhite : bool;
  hasGreen : bool;
}.

Definition observe (label : TLPLabel) (a : audit) : audit :=
  if String.eqb label TLPLabelUnlabeled then
    mkAudit (hasSummary a) true (hasWhite a) (hasGreen a)
  else if String.eqb label TLPLabelWhite then
    mkAudit (hasSummary a) (hasUnlabeled a) true (hasGreen a)
  else if String.eqb label TLPLabelGreen then
    mkAudit (hasSummary a) (hasUnlabeled a) (hasWhite a) true
  else a.

(** [p.labelChecker.advisories[label]]: a nil checker panics, a missing
    label reads as the nil map. *)
Definition referenceOf (label : TLPLabel) : M (gset string) :=
  p ← get;
  match labelChecker p with
  | None => panic
  | Some ca =>
      mret (match advisories ca !! label with
            | Some advs => advs
            | None => ∅
            end)
  end.

(** The loop over the files of one feed in phase 3. *)
Definition listingStep (u : string) (makeAbs : Url → Url)
    (advisories : gset string) (adv : AdvisoryFile) : M (gset string) :=
  match url_Parse (AdvisoryFile_URL adv) with
  | inr err => invalidFeedURL u err ;; mret advisories
  | inl au => mret ({[url_String (makeAbs au)]} ∪ advisories)
  end.

(** Phase 3: check for completeness, the body of the loop. *)
Definition phase3_feed (base : Url)
    (advisories : gmap (nat * nat) (option (list AdvisoryFile)))
    (a : audit) (pos : nat * nat) (feed : Feed) : M audit :=
  match URL feed with
  | None => mret a
  | Some u =>
      match lookupFiles advisories pos with
      | None => mret a
      | Some files =>
          match url_Parse u with
          | inr err => invalidFeedURL u err ;; mret a
          | inl up =>
              let feedBase := url_ResolveReference base up in
              let makeAbs := makeAbsolute feedBase in
              let label := tlpLabel (TLPLabel_ feed) in
              let a := observe label a in
              reference ← referenceOf label;
              advisories ← forM (listingStep u makeAbs) ∅ files;
              if containsAllKeys reference advisories then
                mret (mkAudit ({[label]} ∪ hasSummary a) (hasUnlabeled a)
                        (hasWhite a) (hasGreen a))
              else mret a
          end
      end
  end.

Definition noPublicFeed : Message :=
  mkMessage ErrorType
    ("One ROLIE feed with a TLP:WHITE, TLP:GREEN or unlabeled tlp must exist, "
     +:+ "but none were found.") [].

Definition noSummaryFeed (label : TLPLabel) : Message :=
  mkMessage WarnType
    "ROLIE feed for TLP:%s has no accessible listed feed covering all advisories."
    [ArgStr label].

Definition emit (m : Message) : M unit :=
  feed_add (Type_ m) (Format m) (Args m).

(** The processor after the messages [ms] went to the feed sink, one
    after the other, and nothing else happened. *)
Definition feedEmit (ms : list Message) (p : processor) : processor :=
  fold_left
    (λ p m,
       set_badROLIEfeed
         (topic_add (Type_ m) (Format m) (Args m) (badROLIEfeed p)) p)
    ms p.

(** Every TLP level with data should have at least one summary feed. *)
Definition summaryStep (a : audit) (_ : unit) (label : TLPLabel) : M unit :=
  if bool_decide (label ∈ hasSummary a) then mret tt
  else
    reference ← referenceOf label;
    if bool_decide (0 < size reference)%nat then emit (noSummaryFeed label)
    else mret tt.

Definition allLabels : list TLPLabel :=
  [TLPLabelUnlabeled; TLPLabelWhite; TLPLabelGreen; TLPLabelAmber;
   TLPLabelRed].

(** The code after the loop of phase 3. *)
Definition phase3_report (a : audit) : M unit :=
  (if negb (hasWhite a) && negb (hasGreen a) && negb (hasUnlabeled a)
   then emit noPublicFeed else mret tt) ;;
  forM (summaryStep a) tt allLabels.

(** Phase 3 as a whole: the loop over all feeds, then the report. *)
Definition phase3 (base : Url)
    (advisories : gmap (nat * nat) (option (list AdvisoryFile)))
    (feeds : list (list Feed)) : M unit :=
  a ← rangeFeeds (phase3_feed base advisories)
        (mkAudit ∅ false false false) feeds;
  phase3_report a.

(** [processROLIEFeeds] goes through all ROLIE feeds and checks their
    integrity and completeness. *)
Definition processROLIEFeeds (feeds : list (list Feed)) : M unit :=
  p ← get;
  match url_Parse (pmdURL p) with
  | inr err => fail err
  | inl base =>
      modify (λ p, set_badROLIEfeed (topic_use (badROLIEfeed p)) p) ;;
      advisories ← rangeFeeds (phase1_feed base) ∅ feeds;
      rangeFeeds (phase2_feed base advisories) tt feeds ;;
      phase3 base advisories feeds
  end.

(** The feed URLs of the service document, in document order. *)
Definition serviceFeeds (rolieService : ROLIEServiceDocument)
    : list string :=
  fold_left
    (λ sfeeds col,
       fold_left (λ sfeeds fd, sfeeds ++ [HRef fd]) (Collection col) sfeeds)
    (Workspace (Service rolieService)) [].

(** The feed URLs of the provider metadata; [*s.URL] panics on nil. *)
Definition metadataFeeds (feeds : list (list Feed)) : M (list string) :=
  forM (λ ffeeds r,
          forM (λ ffeeds s,
                  match URL s with
                  | None => panic
                  | Some u => mret (ffeeds ++ [u])
                  end) ffeeds r)
       [] feeds.

Definition serviceCheck (feeds : list (list Feed)) : M unit :=
  p ← get;
  match url_Parse (pmdURL p) with
  | inr err => fail err
  | inl pmdURL =>
  match util_BaseURL pmdURL with
  | inr err => fail err
  | inl baseURL =>
      let urls := baseURL +:+ "service.json" in
      modify (λ p, set_badROLIEservice (topic_use (badROLIEservice p)) p) ;;
      res ← call (httpGet urls);
      match res with
      | inr err =>
          service_add ErrorType
            "Cannot fetch rolie service document %s: %v"
            [ArgStr urls; ArgErr err] ;;
          fail errContinue
      | inl res =>
          if negb (StatusCode res =? StatusOK) then
            service_add WarnType "Fetching %s failed. Status code %d (%s)"
              [ArgStr urls; ArgInt (StatusCode res); ArgStr (Status res)] ;;
            fail errContinue
          else
            match LoadROLIEServiceDocument (ResBody res) with
            | inr err =>
                service_add ErrorType
                  "Loading ROLIE service document failed: %v."
                  [ArgErr err] ;;
                fail errContinue
            | inl rolieService =>
                let sfeeds := serviceFeeds rolieService in
                ffeeds ← metadataFeeds feeds;
                let '(m1, m2) := sameContentsSS sfeeds ffeeds in
                (if negb (bool_decide (length m1 = 0%nat)) then
                   service_add ErrorType
                     "The ROLIE service document contains nonexistent feed entries: %v"
                     [ArgStrs m1]
                 else mret tt) ;;
                (if negb (bool_decide (length m2 = 0%nat)) then
                   service_add ErrorType
                     "The ROLIE service document is missing feed entries: %v"
                     [ArgStrs m2]
                 else mret tt) ;;
                mret tt
            end
      end
  end
  end.

(** *** Notions of the design document, used to state the properties *)

(** All feeds with their positions, in the order the loops visit them. *)
Definition feedRefs (feeds : list (list Feed)) : list (nat * nat * Feed) :=
  mjoin (imap (λ j fs, imap (λ i feed, ((j, i), feed)) fs) feeds).

(** The recorded inventory of a label: the advisory URLs the label checker
    holds under it, none if the label was never seen. *)
Definition inventory (ca : rolieLabelChecker) (label : TLPLabel)
    : gset string :=
  default ∅ (advisories ca !! label).

(** The local listing of a feed: the absolute URLs of the advisories it
    lists, as far as their URLs parse. *)
Definition absoluteURL (feedBase : Url) (adv : AdvisoryFile)
    : option string :=
  match url_Parse (AdvisoryFile_URL adv) with
  | inl au => Some (url_String (makeAbsolute feedBase au))
  | inr _ => None
  end.

Definition absoluteListing (feedBase : Url) (files : list AdvisoryFile)
    : gset string :=
  list_to_set (omap (absoluteURL feedBase) files).

(** A feed takes part in the audit if it has a URL that parses and a
    listing was fetched for it in phase 1. *)
Definition audited
    (advisories : gmap (nat * nat) (option (list AdvisoryFile)))
    (r : nat * nat * Feed) : bool :=
  match URL r.2 with
  | None => false
  | Some u =>
      match lookupFiles advisories r.1, url_Parse u with
      | Some _, inl _ => true
      | _, _ => false
      end
  end.

(** The declared labels of the audited feeds. *)
Definition observedLabels
    (advisories : gmap (nat * nat) (option (list AdvisoryFile)))
    (feeds : list (list Feed)) : list TLPLabel :=
  map (λ r, tlpLabel (TLPLabel_ r.2))
      (filter (λ r, audited advisories r = true) (feedRefs feeds)).

Definition publicLabels : list TLPLabel :=
  [TLPLabelUnlabeled; TLPLabelWhite; TLPLabelGreen].

(** The warnings due after the audit: one for each label, in the order of
    [allLabels], that has advisories recorded and no summary feed. *)
Definition summaryWarnings (ca : rolieLabelChecker) (a : audit)
    : list Message :=
  map noSummaryFeed
    (filter (λ l, (l ∉ hasSummary a) ∧ (inventory ca l ≠ ∅)) allLabels).

(** What the audit of one feed does to the local variables of phase 3,
    given the label checker phase 2 left behind. *)
Definition auditStep (ca : rolieLabelChecker) (base : Url)
    (advisories : gmap (nat * nat) (option (list AdvisoryFile)))
    (a : audit) (r : nat * nat * Feed) : audit :=
  match URL r.2 with
  | None => a
  | Some u =>
      match lookupFiles advisories r.1, url_Parse u with
      | Some files, inl up =>
          let label := tlpLabel (TLPLabel_ r.2) in
          let a := observe label a in
          if decide (inventory ca label
                     ⊆ absoluteListing (url_ResolveReference base up) files)
          then mkAudit ({[label]} ∪ hasSummary a) (hasUnlabeled a)
                 (hasWhite a) (hasGreen a)
          else a
      | _, _ => a
      end
  end.

(** Whether one of the publicly shareable labels was seen. *)
Definition publicSeen (a : audit) : bool :=
  hasUnlabeled a || hasWhite a || hasGreen a.

(** A loop over the feeds in the order of [feedRefs]. *)
Definition feedLoop {A} (body : A → nat * nat → Feed → M A) (a : A)
    (rs : list (nat * nat * Feed)) : M A :=
  forM (λ a r, body a r.1 r.2) a rs.

(** The processor after the messages [ms] went to the service sink. *)
Definition serviceEmit (ms : list Message) (p : processor) : processor :=
  fold_left
    (λ p m,
       set_badROLIEservice
         (topic_add (Type_ m) (Format m) (Args m) (badROLIEservice p)) p)
    ms p.

(** The errors [serviceCheck] reports for the two lists of strings missing
    on either side. *)
Definition serviceDrift (m1 m2 : list string) : list Message :=
  (if bool_decide (m1 = []) then []
   else [mkMessage ErrorType
           "The ROLIE service document contains nonexistent feed entries: %v"
           [ArgStrs m1]])
  ++ (if bool_decide (m2 = []) then []
      else [mkMessage ErrorType
              "The ROLIE service document is missing feed entries: %v"
              [ArgStrs m2]]).

(** The processor after the messages [ms] went to the provider metadata
    sink. *)
Definition pmdEmit (ms : list Message) (p : processor) : processor :=
  fold_left
    (λ p m,
       set_badProviderMetadata
         (topic_add (Type_ m) (Format m) (Args m) (badProviderMetadata p)) p)
    ms p.

(** The URLs behind the URL pointers of a list of feeds, if none is nil. *)
Fixpoint derefURLs (l : list Feed) : option (list string) :=
  match l with
  | [] => Some []
  | s :: rest =>
      match URL s, derefURLs rest with
      | Some u, Some us => Some (u :: us)
      | _, _ => None
      end
  end.

(** [p'] is [p] up to the provider metadata sink. *)
Definition pmdOnly (p p' : processor) : Prop :=
  ∃ t, p' = set_badProviderMetadata t p.
End Checker.

(** ** A small instance to run the checks on

    URLs are plain strings: a reference that starts with the scheme is
    absolute, any other is taken relative to the directory of the base; a
    string that starts with a percent sign does not parse. The feeds that
    can be fetched, the labels of the advisories and the service document
    are fixed tables. *)

Module Demo.
Definition isAbs (s : string) : bool := String.prefix "https://" s.

Definition parse (s : string) : string + error :=
  if String.prefix "%" s then inr (errOther "invalid URL escape")
  else inl s.

Fixpoint hasSlash (s : string) : bool :=
  match s with
  | EmptyString => false
  | String c rest =>
      if Ascii.eqb c (Ascii.ascii_of_nat 47) then true else hasSlash rest
  end.

(** Everything up to the last slash. *)
Fixpoint dir (s : string) : string :=
  match s with
  | EmptyString => EmptyString
  | String c rest => if hasSlash s then String c (dir rest) else EmptyString
  end.

Definition resolve (base ref : string) : string :=
  if isAbs ref then ref else dir base +:+ ref.

#[global] Instance externals : Externals := {|
  Url := string;
  AdvisoryFile := string;
  Body := list string;
  Other := unit;
  url_Parse := parse;
  url_ResolveReference := resolve;
  url_String := λ u, u;
  util_BaseURL := λ u, inl (dir u);
  makeAbsolute := resolve;
  AdvisoryFile_URL := λ adv, adv;
  LoadROLIEServiceDocument := λ hrefs,
    inl (mkServiceDocument
           (mkService [mkWorkspace (map mkCollection hrefs)]));
|}.

Definition root : string := "https://example.com/.well-known/csaf/".
Definition advX : string := root +:+ "green/x.json".
Definition advY : string := root +:+ "amber/y.json".

(** The feeds that can be fetched, with the advisories they list. *)
Definition web : list (string * list string) :=
  [(root +:+ "green/feed.json", ["x.json"; advY]);
   (root +:+ "amber/feed.json", ["y.json"])].

(** The actual labels of the advisories. *)
Definition labelOf (adv : string) : TLPLabel :=
  if String.eqb adv advX then TLPLabelGreen
  else if String.eqb adv advY then TLPLabelAmber
  else TLPLabelUnlabeled.

Fixpoint fetch (table : list (string * list string)) (url : string)
    : option (list string) :=
  match table with
  | [] => None
  | (u, files) :: rest => if String.eqb u url then Some files
                          else fetch rest url
  end.

(** The integrity walk of the instance: every file is made absolute and
    handed, with its actual label, to the current label checker (phase 2
    sets one before each walk). *)
Definition walk (feedBase : string) (_ : unit) (file : string) : M unit :=
  let adv := resolve feedBase file in
  checkCurrent (labelOf adv) adv.

#[global] Instance collaborators : Collaborators := {|
  checkTLS := λ _ p, p;
  rolieFeedEntries := λ url p,
    if String.eqb url (root +:+ "broken/feed.json") then
      (p, (None, Some (errOther "validation failed")))
    else
      match fetch web url with
      | Some files => (p, (Some files, None))
      | None =>
          (set_badProviderMetadata
             (topic_add ErrorType "Cannot fetch feed %s: %v"
                [ArgStr url; ArgErr (errOther "not found")]
                (badProviderMetadata p)) p,
           (None, Some errContinue))
      end;
  integrity := λ files feedBase p,
    match forM (walk feedBase) tt files p with
    | (p', Val _) => (p', None)
    | (p', Fail e) => (p', Some e)
    | (p', Panic) => (p', Some (errOther "panic"))
    end;
  httpGet := λ url p,
    if String.eqb url (root +:+ "service.json") then
      (p, inl (mkResponse StatusOK "200 OK"
                 [root +:+ "green/feed.json"; root +:+ "amber/feed.json"]))
    else (p, inr (errOther "not found"));
|}.

Definition noMessages : topicMessages := mkTopic false [].

Definition start : processor :=
  mkProcessor (root +:+ "provider-metadata.json") noMessages noMessages
    noMessages None tt.

Definition feed (label url : string) : Feed :=
  mkFeed "" (Some label) (Some url).

(** The provider metadata of the end-to-end scenario: a green feed that
    lists a green and an amber advisory, and an amber feed. *)
Definition scenario : list (list Feed) :=
  [[feed TLPLabelGreen "green/feed.json"];
   [feed TLPLabelAmber (root +:+ "amber/feed.json")]].

(** A label checker as phase 2 leaves it after the amber feed. *)
Definition amberChecker : rolieLabelChecker :=
  mkChecker (root +:+ "amber/feed.json") TLPLabelAmber
    {[TLPLabelAmber := {[advY]}]}.

Definition fetched : gmap (nat * nat) (option (list string)) :=
  {[(0%nat, 0%nat) := Some ["x.json"; advY];
    (1%nat, 0%nat) := Some ["y.json"]]}.
End Demo.

(** ** Collaborators that fail without a word

    Over the same URLs as above: the green feed can be fetched, any other
    fetch returns the continue sentinel, and so does every integrity walk;
    neither writes a message to any sink. *)

Module Quiet.
Definition collaborators : @Collaborators Demo.externals := {|
  checkTLS := λ _ p, p;
  rolieFeedEntries := λ url p,
    if String.eqb url (Demo.root +:+ "green/feed.json") then
      (p, (Some ["x.json"], None))
    else (p, (None, Some errContinue));
  integrity := λ _ _ p, (p, Some errContinue);
  httpGet := λ _ p, (p, inr (errOther "not found"));
|}.

(** An amber feed that cannot be fetched, then the green feed. *)
Definition feeds : list (list Feed) :=
  [[Demo.feed TLPLabelAmber "amber/feed.json"];
   [Demo.feed TLPLabelGreen "green/feed.json"]].

End Quiet.

(** What a run leaves in the two sinks of the feed walk, and how it ends. *)
Definition outcome `{Externals} (run : processor * res unit)
    : list Message * list Message * res unit :=
  (messages (badProviderMetadata run.1), messages (badROLIEfeed run.1), run.2).

(** ** Further notions, used by the properties of the last part *)

Section MoreNotions.
Context `{Collaborators}.

(** A run of calls of [check] on one checker, one call for each advisory
    with its label, in order. *)
Definition checkAll (ca : rolieLabelChecker)
    (advs : list (TLPLabel * string)) : M rolieLabelChecker :=
  forM (λ ca la, check ca la.1 la.2) ca advs.

(** The advisories of a run that carry the label [label]. *)
Definition labelled (label : TLPLabel) (advs : list (TLPLabel * string))
    : gset string :=
  list_to_set (map snd (filter (λ la, la.1 = label) advs)).

(** The advisories of a run whose rank is not the rank of [F]. *)
Definition misplaced (F : TLPLabel) (advs : list (TLPLabel * string))
    : list (TLPLabel * string) :=
  filter (λ la, tlpLevel la.1 ≠ tlpLevel F) advs.

(** The processor after [p.badROLIEfeed.use()]. *)
Definition useFeedSink (p : processor) : processor :=
  set_badROLIEfeed (topic_use (badROLIEfeed p)) p.

(** The processor after [p.badROLIEservice.use()]. *)
Definition useServiceSink (p : processor) : processor :=
  set_badROLIEservice (topic_use (badROLIEservice p)) p.

(** The error for a URL that does not parse; it names the URL of the feed. *)
Definition invalidURLMessage (u : string) (err : error) : Message :=
  mkMessage ErrorType "Invalid URL %s in feed: %v." [ArgStr u; ArgErr err].

(** The errors the audit of one feed sends to the provider metadata sink:
    one for each listed advisory whose URL does not parse. *)
Definition listingErrors (u : string) (files : list AdvisoryFile)
    : list Message :=
  omap (λ adv, match url_Parse (AdvisoryFile_URL adv) with
               | inl _ => None
               | inr err => Some (invalidURLMessage u err)
               end) files.

Definition auditErrors
    (advisories : gmap (nat * nat) (option (list AdvisoryFile)))
    (r : nat * nat * Feed) : list Message :=
  match URL r.2 with
  | None => []
  | Some u =>
      match lookupFiles advisories r.1, url_Parse u with
      | Some files, inl _ => listingErrors u files
      | Some _, inr err => [invalidURLMessage u err]
      | None, _ => []
      end
  end.
End MoreNotions.

(** ** The label model: properties *)

Lemma tlpLevel_range (label : TLPLabel) : 0 ≤ tlpLevel label ≤ 4.
Proof. unfold tlpLevel. repeat case_match; lia. Qed.

Lemma tlpLevel_unrecognized (label : TLPLabel) :
  label ∉ [TLPLabelWhite; TLPLabelGreen; TLPLabelAmber; TLPLabelRed] →
  tlpLevel label = 0.
Proof.
  intros Hn. unfold tlpLevel.
  repeat match goal with
  | |- context [String.eqb label ?c] =>
      destruct (String.eqb_spec label c) as [->|_]; [set_solver|]
  end.
  reflexivity.
Qed.

(** C9: [tlpLevel] sends Unlabeled, White, Green, Amber, Red to 0, 1, 2, 3, 4,
    so it is strictly increasing and injective on the five defined labels;
    every label that is not one of the five has level 0; [tlpLabel] sends a
    nil label to Unlabeled and any other pointer to its value. *)
Theorem tlpLevel_order :
  map tlpLevel allLabels = [0; 1; 2; 3; 4]
  ∧ (∀ i j l1 l2, allLabels !! i = Some l1 → allLabels !! j = Some l2 →
       (i < j)%nat → tlpLevel l1 < tlpLevel l2)
  ∧ (∀ l1 l2, l1 ∈ allLabels → l2 ∈ allLabels →
       tlpLevel l1 = tlpLevel l2 → l1 = l2)
  ∧ (∀ l, l ∉ allLabels → tlpLevel l = tlpLevel TLPLabelUnlabeled
                           ∧ tlpLevel l = 0)
  ∧ (∀ l, 0 ≤ tlpLevel l ≤ 4)
  ∧ tlpLabel None = TLPLabelUnlabeled
  ∧ (∀ l, tlpLabel (Some l) = l).
Proof.
  split_and!; try done.
  - intros i j l1 l2 Hi Hj Hlt.
    destruct i as [|[|[|[|[|?]]]]]; simplify_eq/=;
      destruct j as [|[|[|[|[|?]]]]]; simplify_eq/=; try lia; by vm_compute.
  - intros l1 l2 H1 H2. unfold allLabels in *.
    set_unfold. destruct_or!; subst; by vm_compute.
  - intros l Hl. split; [change (tlpLevel TLPLabelUnlabeled) with 0|];
      apply tlpLevel_unrecognized; intros Hin; apply Hl; by right.
  - apply tlpLevel_range.
Qed.

(** ** The label checker: properties *)

Section CheckFacts.
Context `{Collaborators}.

(** C1: one call of [check] adds to the feed sink exactly one message when
    the advisory ranks below the feed (an info for rank 0, else a warning
    whose arguments name both labels and the feed URL), exactly one error
    naming the advisory, its label, the feed URL and the feed label when it
    ranks above, and nothing at all when the ranks are equal; no other part
    of the processor changes. *)
Theorem check_diagnostics (ca : rolieLabelChecker) (A : TLPLabel)
    (advisory : string) (p : processor) :
  let F := feedLabel ca in
  ∃ ca',
    (tlpLevel A < tlpLevel F →
       ∃ m, check ca A advisory p = (feedEmit [m] p, Val ca')
         ∧ (tlpLevel A = 0 → Type_ m = InfoType)
         ∧ (tlpLevel A ≠ 0 →
              Type_ m = WarnType
              ∧ ArgStr A ∈ Args m ∧ ArgStr F ∈ Args m
              ∧ ArgStr (feedURL ca) ∈ Args m))
    ∧ (tlpLevel A > tlpLevel F →
       ∃ m, check ca A advisory p = (feedEmit [m] p, Val ca')
         ∧ Type_ m = ErrorType
         ∧ ArgStr advisory ∈ Args m ∧ ArgStr A ∈ Args m
         ∧ ArgStr (feedURL ca) ∈ Args m ∧ ArgStr F ∈ Args m)
    ∧ (tlpLevel A = tlpLevel F →
       check ca A advisory p = (feedEmit [] p, Val ca')).
Proof.
  intros F. eexists. split_and!; intros Hrank.
  - unfold check. fold F.
    destruct (Z.ltb_spec (tlpLevel A) (tlpLevel F)); [|lia].
    destruct (Z.eqb_spec (tlpLevel A) 0); eexists (mkMessage _ _ _);
      (split; [reflexivity|]); simpl; split; try done; intros _;
      split_and!; try done; set_solver.
  - unfold check. fold F.
    destruct (Z.ltb_spec (tlpLevel A) (tlpLevel F)); [lia|].
    destruct (Z.ltb_spec (tlpLevel F) (tlpLevel A)); [|lia].
    eexists (mkMessage _ _ _); (split; [reflexivity|]); simpl;
      split_and!; try done; set_solver.
  - unfold check. fold F.
    destruct (Z.ltb_spec (tlpLevel A) (tlpLevel F)); [lia|].
    destruct (Z.ltb_spec (tlpLevel F) (tlpLevel A)); [lia|].
    reflexivity.
Qed.

Lemma checkCurrent_check (ca : rolieLabelChecker) (A : TLPLabel)
    (advisory : string) (p : processor) :
  labelChecker p = Some ca →
  checkCurrent A advisory p
  = match check ca A advisory p with
    | (p', Val ca') => (set_labelChecker (Some ca') p', Val tt)
    | (p', Fail e) => (p', Fail e)
    | (p', Panic) => (p', Panic)
    end.
Proof.
  intros Hca. unfold checkCurrent, mbind, M_bind, get. by rewrite Hca.
Qed.

(** C7: every call of [check] stores the advisory URL in the set kept under
    the advisory's label, starting from the empty set when the label has
    none yet; the sets of all other labels, the feed URL and the feed label
    stay as they were. Nothing of this depends on how the two ranks compare.
    When the receiver is the processor's own label checker, the processor
    sees the changed checker after the call. *)
Theorem check_records (ca : rolieLabelChecker) (A : TLPLabel)
    (advisory : string) (p : processor) :
  ∃ p' ca',
    check ca A advisory p = (p', Val ca')
    ∧ advisories ca' !! A
        = Some ({[advisory]} ∪ default ∅ (advisories ca !! A))
    ∧ (∃ advs, advisories ca' !! A = Some advs ∧ advisory ∈ advs)
    ∧ (∀ l, l ≠ A → advisories ca' !! l = advisories ca !! l)
    ∧ feedURL ca' = feedURL ca
    ∧ feedLabel ca' = feedLabel ca
    ∧ (labelChecker p = Some ca →
         checkCurrent A advisory p = (set_labelChecker (Some ca') p', Val tt)).
Proof.
  assert (∃ p', check ca A advisory p
    = (p', Val (mkChecker (feedURL ca) (feedLabel ca)
                  (<[A := {[advisory]} ∪ default ∅ (advisories ca !! A)]>
                     (advisories ca))))) as [p' Hrun].
  { unfold check, mbind, M_bind.
    assert (match advisories ca !! A with Some advs => advs | None => ∅ end
            = default ∅ (advisories ca !! A)) as -> by done.
    destruct (tlpLevel A <? tlpLevel (feedLabel ca));
      [destruct (tlpLevel A =? 0)
      |destruct (tlpLevel (feedLabel ca) <? tlpLevel A)];
      eexists; reflexivity. }
  eexists p', _. split; [exact Hrun|]. simpl. split_and!; try done.
  - apply lookup_insert_eq.
  - eexists. split; [apply lookup_insert_eq|].
    apply elem_of_union_l. by apply elem_of_singleton.
  - intros l Hne. by rewrite lookup_insert_ne.
  - intros Hca. by rewrite (checkCurrent_check ca), Hrun.
Qed.
End CheckFacts.

(** ** The slice helpers: properties *)

Lemma containsAllSS_elem_of (slice : list string) (str : string) :
  containsAllSS slice str = true ↔ str ∈ slice.
Proof.
  induction slice as [|e rest IH]; simpl.
  - split; [done|]. by intros ?%elem_of_nil.
  - destruct (String.eqb_spec e str) as [->|Hne].
    + split; [intros _; by left|done].
    + rewrite IH. split; [by right|].
      intros [?|?]%elem_of_cons; congruence.
Qed.

Lemma missingLoop_filter (other m xs : list string) :
  missingLoop other m xs = m ++ filter (λ x, x ∉ other) xs.
Proof.
  revert m. induction xs as [|e rest IH]; intros m; simpl.
  - by rewrite filter_nil, app_nil_r.
  - rewrite filter_cons.
    destruct (containsAllSS other e) eqn:Hc; simpl.
    + apply containsAllSS_elem_of in Hc.
      rewrite decide_False by (by intros Hn). apply IH.
    + assert (e ∉ other) as Hn.
      { intros Hin%containsAllSS_elem_of. congruence. }
      rewrite decide_True by done. rewrite IH. by rewrite <- app_assoc.
Qed.

Lemma sameContentsSS_eq (A B : list string) :
  sameContentsSS A B = (filter (λ x, x ∉ B) A, filter (λ x, x ∉ A) B).
Proof. unfold sameContentsSS. by rewrite !missingLoop_filter. Qed.

Lemma filter_absent_perm (A A' B B' : list string) :
  A ≡ₚ A' → B ≡ₚ B' → filter (λ x, x ∉ B) A ≡ₚ filter (λ x, x ∉ B') A'.
Proof.
  intros HA HB. rewrite HA.
  rewrite (list_filter_iff (λ x, x ∉ B) (λ x, x ∉ B')); [done|].
  intros x. by rewrite HB.
Qed.

Lemma filter_absent_self (A : list string) : filter (λ x, x ∉ A) A = [].
Proof.
  destruct (filter (λ x, x ∉ A) A) as [|x l] eqn:Hf; [done|].
  assert (x ∈ filter (λ x, x ∉ A) A) as Hx by (rewrite Hf; by left).
  apply list_elem_of_filter in Hx as [? ?]. done.
Qed.

Lemma filter_absent_all (A B : list string) :
  (∀ x, x ∈ A → x ∉ B) → filter (λ x, x ∉ B) A = A.
Proof.
  induction A as [|a A IH]; intros Hd; [done|].
  rewrite filter_cons, decide_True by (apply Hd; by left).
  f_equal. apply IH. intros x Hx. apply Hd. by right.
Qed.

(** C4, as the code has it: [sameContentsSS A B] is the pair of [A] without
    the elements of [B] and [B] without the elements of [A], each in the
    order and with the multiplicity of its input (duplicates stay); an
    element is in the first result exactly if it is in [A] and not in [B],
    and likewise for the second; reordering the inputs only reorders the
    results; how often and where a string occurs in the other slice does
    not matter; empty inputs give empty results; equal inputs give two
    empty results; disjoint inputs come back unaltered; and for [a] and [d]
    outside the other list, [a,b,c] and [b,c,d] give [a] and [d]. *)
Theorem sameContentsSS_difference (A B : list string) :
  sameContentsSS A B = (filter (λ x, x ∉ B) A, filter (λ x, x ∉ A) B)
  ∧ (∀ x, x ∈ (sameContentsSS A B).1 ↔ x ∈ A ∧ x ∉ B)
  ∧ (∀ x, x ∈ (sameContentsSS A B).2 ↔ x ∈ B ∧ x ∉ A)
  ∧ (∀ A' B', A ≡ₚ A' → B ≡ₚ B' →
       (sameContentsSS A B).1 ≡ₚ (sameContentsSS A' B').1
       ∧ (sameContentsSS A B).2 ≡ₚ (sameContentsSS A' B').2)
  ∧ (∀ B', (∀ x, x ∈ B ↔ x ∈ B') →
       (sameContentsSS A B).1 = (sameContentsSS A B').1)
  ∧ sameContentsSS [] [] = ([], [])
  ∧ sameContentsSS A A = ([], [])
  ∧ ((∀ x, x ∈ A → x ∉ B) → sameContentsSS A B = (A, B))
  ∧ (∀ a b c d, a ∉ [b; c; d] → d ∉ [a; b; c] →
       sameContentsSS [a; b; c] [b; c; d] = ([a], [d])).
Proof.
  split_and!.
  - apply sameContentsSS_eq.
  - intros x. rewrite sameContentsSS_eq. simpl.
    rewrite list_elem_of_filter. tauto.
  - intros x. rewrite sameContentsSS_eq. simpl.
    rewrite list_elem_of_filter. tauto.
  - intros A' B' HA HB. rewrite !sameContentsSS_eq. simpl.
    split; by apply filter_absent_perm.
  - intros B' HB. rewrite !sameContentsSS_eq. simpl.
    apply list_filter_iff. intros x. by rewrite HB.
  - reflexivity.
  - rewrite sameContentsSS_eq. by rewrite filter_absent_self.
  - intros Hd. rewrite sameContentsSS_eq.
    rewrite !filter_absent_all; [done| |done].
    intros x HxB HxA. by apply (Hd x).
  - intros a b c d Ha Hd. rewrite sameContentsSS_eq.
    rewrite !filter_cons, !filter_nil.
    rewrite (decide_True _ _ Ha).
    rewrite (decide_False (P := b ∉ [b; c; d])) by set_solver.
    rewrite (decide_False (P := c ∉ [b; c; d])) by set_solver.
    rewrite (decide_False (P := b ∉ [a; b; c])) by set_solver.
    rewrite (decide_False (P := c ∉ [a; b; c])) by set_solver.
    by rewrite (decide_True _ _ Hd).
Qed.

(** C4, the part the code does not do: duplicates do not collapse. A string
    listed twice in one slice and missing in the other is returned twice. *)
Lemma sameContentsSS_keeps_duplicates :
  sameContentsSS ["a"; "a"] [] = (["a"; "a"], [])
  ∧ ¬ NoDup (sameContentsSS ["a"; "a"] []).1.
Proof.
  split; [reflexivity|].
  change (sameContentsSS ["a"; "a"] []).1 with ["a"; "a"].
  intros Hn. apply NoDup_cons in Hn as [Hn _]. apply Hn. by left.
Qed.

(** ** Loops and state: basic facts *)

Section ControlFacts.
Context `{Externals}.

Lemma forM_cons {A B} (body : A → B → M A) (a : A) (x : B) (l : list B)
    (p : processor) :
  forM body a (x :: l) p
  = match body a x p with
    | (p', Val a') => forM body a' l p'
    | (p', Fail e) => (p', Fail e)
    | (p', Panic) => (p', Panic)
    end.
Proof. reflexivity. Qed.

Lemma forM_app {A B} (body : A → B → M A) (a : A) (l1 l2 : list B)
    (p : processor) :
  forM body a (l1 ++ l2) p
  = match forM body a l1 p with
    | (p', Val a') => forM body a' l2 p'
    | (p', Fail e) => (p', Fail e)
    | (p', Panic) => (p', Panic)
    end.
Proof.
  revert a p. induction l1 as [|x l1 IH]; intros a p; simpl; [done|].
  unfold mbind, M_bind. destruct (body a x p) as [p' [a'|e|]]; auto.
Qed.

Lemma forM_inner_flat {A} (body : A → nat * nat → Feed → M A) (j : nat)
    (k : nat → nat) (fs : list Feed) (a : A) (p : processor) :
  forM (λ a '(i, feed), body a (j, i) feed) a (imap (λ i x, (k i, x)) fs) p
  = forM (λ a r, body a r.1 r.2) a
      (imap (λ i feed, ((j, k i), feed)) fs) p.
Proof.
  revert k a p. induction fs as [|f fs IH]; intros k a p; simpl; [done|].
  unfold mbind, M_bind. destruct (body a (j, k 0%nat) f p) as [p' [a'|e|]];
    auto.
  apply (IH (k ∘ S)).
Qed.

Lemma forM_inner_indexed {A} (body : A → nat * nat → Feed → M A) (j : nat)
    (fs : list Feed) (a : A) (p : processor) :
  forM (λ a '(i, feed), body a (j, i) feed) a (indexed fs) p
  = forM (λ a r, body a r.1 r.2) a (imap (λ i feed, ((j, i), feed)) fs) p.
Proof. apply (forM_inner_flat body j (λ i, i)). Qed.

Lemma forM_outer_flat {A} (body : A → nat * nat → Feed → M A)
    (k : nat → nat) (feeds : list (list Feed)) (a : A) (p : processor) :
  forM (λ a '(j, fs),
          forM (λ a '(i, feed), body a (j, i) feed) a (indexed fs))
       a (imap (λ j x, (k j, x)) feeds) p
  = forM (λ a r, body a r.1 r.2) a
      (mjoin (imap (λ j fs, imap (λ i feed, ((k j, i), feed)) fs) feeds)) p.
Proof.
  revert k a p.
  induction feeds as [|fs feeds IH]; intros k a p; simpl; [done|].
  rewrite forM_app. unfold mbind, M_bind.
  rewrite <- forM_inner_indexed.
  destruct (forM _ a (indexed fs) p) as [p' [a'|e|]]; auto.
  apply (IH (k ∘ S)).
Qed.

(** The nested loops visit the feeds in the order of [feedRefs]. *)
Lemma rangeFeeds_flat {A} (body : A → nat * nat → Feed → M A) (a : A)
    (feeds : list (list Feed)) (p : processor) :
  rangeFeeds body a feeds p
  = forM (λ a r, body a r.1 r.2) a (feedRefs feeds) p.
Proof. apply (forM_outer_flat body (λ j, j)). Qed.

Lemma feedEmit_cons (m : Message) (ms : list Message) (p : processor) :
  feedEmit (m :: ms) p = feedEmit ms (feedEmit [m] p).
Proof. reflexivity. Qed.

Lemma feedEmit_labelChecker (ms : list Message) (p : processor) :
  labelChecker (feedEmit ms p) = labelChecker p.
Proof.
  revert p. induction ms as [|m ms IH]; intros p; [done|].
  rewrite feedEmit_cons, IH. done.
Qed.

Lemma feedEmit_messages (ms : list Message) (p : processor) :
  messages (badROLIEfeed (feedEmit ms p))
  = messages (badROLIEfeed p) ++ ms.
Proof.
  revert p. induction ms as [|m ms IH]; intros p.
  - by rewrite app_nil_r.
  - rewrite feedEmit_cons, IH. destruct m. simpl. by rewrite <- app_assoc.
Qed.

Lemma pmdOnly_refl (p : processor) : pmdOnly p p.
Proof. exists (badProviderMetadata p). destruct p. reflexivity. Qed.

Lemma pmdOnly_trans (p1 p2 p3 : processor) :
  pmdOnly p1 p2 → pmdOnly p2 p3 → pmdOnly p1 p3.
Proof. intros [t1 ->] [t2 ->]. by exists t2. Qed.

Lemma pmdOnly_set (t : topicMessages) (p : processor) :
  pmdOnly p (set_badProviderMetadata t p).
Proof. by exists t. Qed.

Lemma pmdOnly_labelChecker (p p' : processor) :
  pmdOnly p p' → labelChecker p' = labelChecker p.
Proof. by intros [t ->]. Qed.

Lemma pmdOnly_badROLIEfeed (p p' : processor) :
  pmdOnly p p' → badROLIEfeed p' = badROLIEfeed p.
Proof. by intros [t ->]. Qed.
End ControlFacts.

#[local] Hint Resolve pmdOnly_refl pmdOnly_set : core.

(** ** Phase 3: the completeness audit *)

Lemma containsAllKeys_subseteq (m1 m2 : gset string) :
  containsAllKeys m1 m2 = true ↔ m1 ⊆ m2.
Proof.
  unfold containsAllKeys.
  assert (Hl : ∀ keys, containsAllKeysLoop keys m2 = true
                       ↔ ∀ k, k ∈ keys → k ∈ m2).
  { induction keys as [|k keys IH]; simpl.
    - split; [|done]. intros _ k Hk. by apply elem_of_nil in Hk.
    - destruct (bool_decide_reflect (k ∈ m2)) as [Hin|Hout]; simpl.
      + rewrite IH. split.
        * intros Hall k' [->|?]%elem_of_cons; auto.
        * intros Hall k' Hk'. apply Hall. by right.
      + split; [done|]. intros Hall. destruct Hout. apply Hall. by left. }
  rewrite Hl. rewrite elem_of_subseteq.
  split; intros Hall k Hk; apply Hall; by apply elem_of_elements.
Qed.

Section AuditFacts.
Context `{Collaborators}.

Lemma referenceOf_inventory (label : TLPLabel) (p : processor)
    (ca : rolieLabelChecker) :
  labelChecker p = Some ca →
  referenceOf label p = (p, Val (inventory ca label)).
Proof.
  intros Hca. unfold referenceOf, mbind, M_bind, get. rewrite Hca.
  unfold inventory. by destruct (advisories ca !! label).
Qed.

Lemma referenceOf_nil (label : TLPLabel) (p : processor) :
  labelChecker p = None → referenceOf label p = (p, Panic).
Proof.
  intros Hca. unfold referenceOf, mbind, M_bind, get. by rewrite Hca.
Qed.

(** The loop over the files of a feed builds its local listing and writes
    to the provider metadata sink only. *)
Lemma listing_loop (u : string) (feedBase : Url) (files : list AdvisoryFile)
    (s : gset string) (p : processor) :
  ∃ p', forM (listingStep u (makeAbsolute feedBase)) s files p
        = (p', Val (absoluteListing feedBase files ∪ s))
      ∧ pmdOnly p p'.
Proof.
  revert s p. induction files as [|adv files IH]; intros s p.
  - exists p. split; [|done]. unfold absoluteListing. simpl.
    by rewrite (left_id_L ∅ (∪)).
  - rewrite forM_cons. unfold listingStep at 1.
    unfold absoluteListing. simpl. unfold absoluteURL at 1.
    destruct (url_Parse (AdvisoryFile_URL adv)) as [au|err].
    + destruct (IH ({[url_String (makeAbsolute feedBase au)]} ∪ s) p)
        as (p' & Hrun & Hp').
      exists p'. split; [|done]. simpl. rewrite Hrun. f_equal. f_equal.
      unfold absoluteListing. apply set_eq. intros x.
      rewrite !elem_of_union. tauto.
    + unfold invalidFeedURL, pmd_add, modify, mbind, M_bind. simpl.
      edestruct IH as (p' & Hrun & Hp'). exists p'. rewrite Hrun.
      split; [done|].
      eapply pmdOnly_trans; [|exact Hp']. done.
Qed.

(** One turn of the loop of phase 3, with a label checker in place. *)
Lemma phase3_feed_step (base : Url)
    (advisories : gmap (nat * nat) (option (list AdvisoryFile)))
    (a : audit) (pos : nat * nat) (feed : Feed) (p : processor)
    (ca : rolieLabelChecker) :
  labelChecker p = Some ca →
  ∃ p', phase3_feed base advisories a pos feed p
        = (p', Val (auditStep ca base advisories a (pos, feed)))
      ∧ pmdOnly p p'.
Proof.
  intros Hca. unfold phase3_feed, auditStep. simpl.
  destruct (URL feed) as [u|]; [|by exists p].
  destruct (lookupFiles advisories pos) as [files|]; [|by exists p].
  destruct (url_Parse u) as [up|err].
  - unfold mbind, M_bind.
    rewrite (referenceOf_inventory _ _ _ Hca).
    destruct (listing_loop u (url_ResolveReference base up) files ∅ p)
      as (p' & -> & Hp').
    rewrite (right_id_L ∅ (∪)).
    exists p'. split; [|done].
    destruct (containsAllKeys _ _) eqn:Hc.
    + apply containsAllKeys_subseteq in Hc. by rewrite decide_True.
    + rewrite decide_False; [done|].
      intros Hs%containsAllKeys_subseteq. congruence.
  - eexists. split; [reflexivity|]. done.
Qed.

(** The loop of phase 3 folds [auditStep] over all feeds. *)
Lemma phase3_loop (base : Url)
    (advisories : gmap (nat * nat) (option (list AdvisoryFile)))
    (feeds : list (list Feed)) (a : audit) (p : processor)
    (ca : rolieLabelChecker) :
  labelChecker p = Some ca →
  ∃ p', rangeFeeds (phase3_feed base advisories) a feeds p
        = (p', Val (fold_left (auditStep ca base advisories)
                      (feedRefs feeds) a))
      ∧ pmdOnly p p'.
Proof.
  intros Hca. rewrite rangeFeeds_flat.
  generalize (feedRefs feeds) as rs. intros rs.
  revert a p Hca. induction rs as [|[pos feed] rs IH]; intros a p Hca.
  - by exists p.
  - simpl. unfold mbind, M_bind.
    destruct (phase3_feed_step base advisories a pos feed p ca Hca)
      as (p1 & -> & Hp1).
    destruct (IH (auditStep ca base advisories a (pos, feed)) p1)
      as (p' & -> & Hp').
    { by rewrite (pmdOnly_labelChecker _ _ Hp1). }
    exists p'. split; [done|]. by eapply pmdOnly_trans.
Qed.
End AuditFacts.

Section ReportFacts.
Context `{Collaborators}.

Lemma observe_publicSeen (label : TLPLabel) (a : audit) :
  publicSeen (observe label a) = true
  ↔ publicSeen a = true ∨ label ∈ publicLabels.
Proof.
  unfold observe, publicSeen, publicLabels.
  destruct (String.eqb_spec label TLPLabelUnlabeled) as [->|HU]; simpl.
  { split; [intros _; right; by left|done]. }
  destruct (String.eqb_spec label TLPLabelWhite) as [->|HW]; simpl.
  { rewrite orb_true_r. simpl.
    split; [intros _; right; by repeat constructor|done]. }
  destruct (String.eqb_spec label TLPLabelGreen) as [->|HG]; simpl.
  { rewrite orb_true_r. split; [intros _; right; by repeat constructor|done]. }
  split; [by left|]. intros [?|Hin]; [done|].
  repeat (apply elem_of_cons in Hin as [?|Hin]; [done|]).
  by apply elem_of_nil in Hin.
Qed.

Lemma observe_hasSummary (label : TLPLabel) (a : audit) :
  hasSummary (observe label a) = hasSummary a.
Proof. unfold observe. by repeat case_match. Qed.

Lemma auditStep_publicSeen (ca : rolieLabelChecker) (base : Url)
    (advisories : gmap (nat * nat) (option (list AdvisoryFile)))
    (a : audit) (r : nat * nat * Feed) :
  publicSeen (auditStep ca base advisories a r) = true
  ↔ publicSeen a = true
    ∨ (audited advisories r = true
       ∧ tlpLabel (TLPLabel_ r.2) ∈ publicLabels).
Proof.
  unfold auditStep, audited.
  destruct (URL r.2) as [u|]; [|intuition congruence].
  destruct (lookupFiles advisories r.1) as [files|]; [|intuition congruence].
  destruct (url_Parse u) as [up|err]; [|intuition congruence].
  cbv zeta. case_decide.
  - change (publicSeen (mkAudit ?s ?u ?w ?g)) with (u || w || g).
    fold (publicSeen (observe (tlpLabel (TLPLabel_ r.2)) a)).
    rewrite observe_publicSeen. intuition congruence.
  - rewrite observe_publicSeen. intuition congruence.
Qed.

Lemma audit_publicSeen (ca : rolieLabelChecker) (base : Url)
    (advisories : gmap (nat * nat) (option (list AdvisoryFile)))
    (rs : list (nat * nat * Feed)) (a : audit) :
  publicSeen (fold_left (auditStep ca base advisories) rs a) = true
  ↔ publicSeen a = true
    ∨ ∃ r, r ∈ rs ∧ audited advisories r = true
           ∧ tlpLabel (TLPLabel_ r.2) ∈ publicLabels.
Proof.
  revert a. induction rs as [|r rs IH]; intros a; simpl.
  - split; [by left|]. intros [?|(r & Hr & _)]; [done|].
    by apply elem_of_nil in Hr.
  - rewrite IH, auditStep_publicSeen. split.
    + intros [[?|[? ?]]|(r' & Hr' & ?)].
      * by left.
      * right. exists r. split; [by left|done].
      * right. exists r'. split; [by right|done].
    + intros [?|(r' & [->|Hr']%elem_of_cons & ?)].
      * left. by left.
      * left. by right.
      * right. by exists r'.
Qed.

Lemma observedLabels_public
    (advisories : gmap (nat * nat) (option (list AdvisoryFile)))
    (feeds : list (list Feed)) :
  (∃ l, l ∈ publicLabels ∧ l ∈ observedLabels advisories feeds)
  ↔ ∃ r, r ∈ feedRefs feeds ∧ audited advisories r = true
         ∧ tlpLabel (TLPLabel_ r.2) ∈ publicLabels.
Proof.
  unfold observedLabels. split.
  - intros (l & Hl & (r & -> & Hr)%list_elem_of_fmap).
    apply list_elem_of_filter in Hr as [? ?]. by exists r.
  - intros (r & Hr & Ha & Hl). eexists. split; [exact Hl|].
    apply list_elem_of_fmap. exists r. split; [done|].
    by apply list_elem_of_filter.
Qed.

(** The loop over the five labels emits the due warnings, in order. *)
Lemma summary_loop (a : audit) (ca : rolieLabelChecker)
    (labels : list TLPLabel) (p : processor) :
  labelChecker p = Some ca →
  forM (summaryStep a) tt labels p
  = (feedEmit
       (map noSummaryFeed
          (filter (λ l, (l ∉ hasSummary a) ∧ (inventory ca l ≠ ∅)) labels))
       p, Val tt).
Proof.
  revert p. induction labels as [|l labels IH]; intros p Hca; [done|].
  rewrite forM_cons. unfold summaryStep at 1.
  destruct (bool_decide_reflect (l ∈ hasSummary a)) as [Hin|Hout].
  - rewrite filter_cons_False by tauto. by apply IH.
  - unfold mbind, M_bind. rewrite (referenceOf_inventory _ _ _ Hca).
    destruct (bool_decide_reflect (0 < size (inventory ca l))%nat)
      as [Hpos|Hzero].
    + rewrite filter_cons_True.
      2:{ split; [done|]. intros He. rewrite He, size_empty in Hpos. lia. }
      simpl map. rewrite feedEmit_cons.
      rewrite <- IH by (by rewrite feedEmit_labelChecker). done.
    + rewrite filter_cons_False.
      2:{ intros [_ Hne]. apply Hzero.
          assert (size (inventory ca l) ≠ 0%nat); [|lia].
          apply size_non_empty_iff. intros He. apply Hne.
          by apply leibniz_equiv. }
      by apply IH.
Qed.

(** The report after the loop, with a label checker in place. *)
Lemma phase3_report_emits (a : audit) (ca : rolieLabelChecker)
    (p : processor) :
  labelChecker p = Some ca →
  phase3_report a p
  = (feedEmit ((if publicSeen a then [] else [noPublicFeed])
               ++ summaryWarnings ca a) p, Val tt).
Proof.
  intros Hca. unfold phase3_report, mbind, M_bind.
  assert (negb (hasWhite a) && negb (hasGreen a) && negb (hasUnlabeled a)
          = negb (publicSeen a)) as ->.
  { unfold publicSeen.
    by destruct (hasUnlabeled a), (hasWhite a), (hasGreen a). }
  unfold summaryWarnings. destruct (publicSeen a).
  - change (forM (summaryStep a) tt allLabels p = (feedEmit
      (map noSummaryFeed (filter (λ l, (l ∉ hasSummary a)
         ∧ (inventory ca l ≠ ∅)) allLabels)) p, Val tt)).
    by apply summary_loop.
  - change (forM (summaryStep a) tt allLabels (feedEmit [noPublicFeed] p)
      = (feedEmit (map noSummaryFeed (filter (λ l, (l ∉ hasSummary a)
         ∧ (inventory ca l ≠ ∅)) allLabels)) (feedEmit [noPublicFeed] p),
         Val tt)).
    by apply summary_loop.
Qed.
(** Without a label checker the report panics at the first label that has
    no summary feed; the error about the public feed is out by then. *)
Lemma phase3_report_nil (a : audit) (p : processor) :
  labelChecker p = None →
  TLPLabelUnlabeled ∉ hasSummary a →
  phase3_report a p
  = (feedEmit (if publicSeen a then [] else [noPublicFeed]) p, Panic).
Proof.
  intros Hnil Hout. unfold phase3_report, mbind, M_bind.
  assert (negb (hasWhite a) && negb (hasGreen a) && negb (hasUnlabeled a)
          = negb (publicSeen a)) as ->.
  { unfold publicSeen.
    by destruct (hasUnlabeled a), (hasWhite a), (hasGreen a). }
  destruct (publicSeen a).
  - change (forM (summaryStep a) tt allLabels p = (p, Panic)).
    unfold allLabels. rewrite forM_cons. unfold summaryStep at 1.
    rewrite bool_decide_eq_false_2 by done.
    unfold mbind, M_bind. by rewrite referenceOf_nil.
  - change (forM (summaryStep a) tt allLabels (feedEmit [noPublicFeed] p)
            = (feedEmit [noPublicFeed] p, Panic)).
    unfold allLabels. rewrite forM_cons. unfold summaryStep at 1.
    rewrite bool_decide_eq_false_2 by done.
    unfold mbind, M_bind. by rewrite referenceOf_nil.
Qed.

(** Without a label checker a turn of the loop of phase 3 ends normally only
    for a feed that is not audited. *)
Lemma phase3_feed_nil (base : Url)
    (advisories : gmap (nat * nat) (option (list AdvisoryFile)))
    (a a' : audit) (pos : nat * nat) (feed : Feed) (p p' : processor) :
  labelChecker p = None →
  phase3_feed base advisories a pos feed p = (p', Val a') →
  a' = a ∧ pmdOnly p p' ∧ audited advisories (pos, feed) = false.
Proof.
  intros Hnil. unfold phase3_feed, audited. simpl.
  destruct (URL feed) as [u|]; [|by intros [= <- <-]].
  destruct (lookupFiles advisories pos) as [files|]; [|by intros [= <- <-]].
  destruct (url_Parse u) as [up|err].
  - unfold mbind, M_bind. by rewrite referenceOf_nil.
  - intros [= <- <-]. done.
Qed.

Lemma phase3_loop_nil (base : Url)
    (advisories : gmap (nat * nat) (option (list AdvisoryFile)))
    (rs : list (nat * nat * Feed)) (a a' : audit) (p p' : processor) :
  labelChecker p = None →
  feedLoop (phase3_feed base advisories) a rs p = (p', Val a') →
  a' = a ∧ pmdOnly p p' ∧ ∀ r, r ∈ rs → audited advisories r = false.
Proof.
  unfold feedLoop. revert p. induction rs as [|[pos feed] rs IH]; intros p Hnil.
  - intros [= <- <-]. split; [done|]. split; [done|].
    intros r Hr. by apply elem_of_nil in Hr.
  - rewrite forM_cons. simpl.
    destruct (phase3_feed base advisories a pos feed p) as [p1 [a1|e|]]
      eqn:Hstep; [|done|done].
    destruct (phase3_feed_nil _ _ _ _ _ _ _ _ Hnil Hstep) as (-> & Hp1 & Hna).
    intros Hrest. destruct (IH p1) as (-> & Hp' & Hnone); [|done|].
    { by rewrite (pmdOnly_labelChecker _ _ Hp1). }
    split; [done|]. split; [by eapply pmdOnly_trans|].
    intros r [->|Hr]%elem_of_cons; auto.
Qed.
End ReportFacts.

(** ** Phase 1: what the fetched listings tell about a feed *)

Section FetchFacts.
Context `{Collaborators}.

(** A position names one feed. *)
Lemma feedRefs_lookup (feeds : list (list Feed)) (pos : nat * nat)
    (feed : Feed) :
  (pos, feed) ∈ feedRefs feeds
  ↔ ∃ fs, feeds !! pos.1 = Some fs ∧ fs !! pos.2 = Some feed.
Proof.
  unfold feedRefs. rewrite list_elem_of_join. split.
  - intros (l & Hin & (j & fs & -> & Hfs)%elem_of_lookup_imap).
    apply elem_of_lookup_imap in Hin as (i & f & [= -> ->] & Hf).
    by exists fs.
  - intros (fs & Hfs & Hf). destruct pos as [j i]. simpl in *.
    exists (imap (λ i feed, ((j, i), feed)) fs). split.
    + by apply (elem_of_lookup_imap_2 (λ i feed, ((j, i), feed))).
    + by apply (elem_of_lookup_imap_2
                  (λ j fs, imap (λ i feed, ((j, i), feed)) fs)).
Qed.

Lemma feedRefs_functional (feeds : list (list Feed)) (pos : nat * nat)
    (f1 f2 : Feed) :
  (pos, f1) ∈ feedRefs feeds → (pos, f2) ∈ feedRefs feeds → f1 = f2.
Proof.
  intros (fs1 & H1 & Hf1)%feedRefs_lookup (fs2 & H2 & Hf2)%feedRefs_lookup.
  congruence.
Qed.

(** One turn of the loop of phase 1 stores a listing only for a feed whose
    URL is there and parses, and only under the position of that feed. *)
Lemma phase1_feed_stores (base : Url)
    (advisories fetched : gmap (nat * nat) (option (list AdvisoryFile)))
    (pos : nat * nat) (feed : Feed) (p p' : processor) :
  phase1_feed base advisories pos feed p = (p', Val fetched) →
  fetched = advisories
  ∨ ∃ u up advs, URL feed = Some u ∧ url_Parse u = inl up
                 ∧ fetched = <[pos := advs]> advisories.
Proof.
  unfold phase1_feed.
  destruct (URL feed) as [u|] eqn:Hu; [|intros [= _ <-]; by left].
  destruct (url_Parse u) as [up|err] eqn:Hp; [|intros [= _ <-]; by left].
  unfold mbind, M_bind, modify, call.
  destruct (rolieFeedEntries _ _) as [p1 [advs [e|]]].
  - destruct (decide (e ≠ errContinue)); [done|]. intros [= _ <-]. by left.
  - intros [= _ <-]. right. by exists u, up, advs.
Qed.

Lemma phase1_loop_stores (base : Url) (rs : list (nat * nat * Feed))
    (advisories fetched : gmap (nat * nat) (option (list AdvisoryFile)))
    (p p' : processor) (pos : nat * nat) :
  feedLoop (phase1_feed base) advisories rs p = (p', Val fetched) →
  is_Some (fetched !! pos) →
  is_Some (advisories !! pos)
  ∨ ∃ feed u up, (pos, feed) ∈ rs ∧ URL feed = Some u
                 ∧ url_Parse u = inl up.
Proof.
  unfold feedLoop. revert advisories p.
  induction rs as [|[pos1 feed1] rs IH]; intros advisories p.
  - intros [= _ <-]. by left.
  - rewrite forM_cons. simpl.
    destruct (phase1_feed base advisories pos1 feed1 p) as [p1 [advs1|e|]]
      eqn:Hstep; [|done|done].
    intros Hrest Hin.
    destruct (IH advs1 p1 Hrest Hin) as [Hold|(feed & u & up & Hr & ?)].
    + apply phase1_feed_stores in Hstep
        as [->|(u & up & advs & Hu & Hp & ->)]; [by left|].
      destruct (decide (pos1 = pos)) as [->|Hne].
      * right. exists feed1, u, up. split; [by left|done].
      * left. by rewrite lookup_insert_ne in Hold.
    + right. exists feed, u, up. split; [by right|done].
Qed.

(** A feed that has a listing in the result of phase 1 has a URL, and the
    URL parses. *)
Lemma phase1_fetched_parses (base : Url) (feeds : list (list Feed))
    (fetched : gmap (nat * nat) (option (list AdvisoryFile)))
    (p p' : processor) (pos : nat * nat) (feed : Feed)
    (files : list AdvisoryFile) :
  rangeFeeds (phase1_feed base) ∅ feeds p = (p', Val fetched) →
  (pos, feed) ∈ feedRefs feeds →
  lookupFiles fetched pos = Some files →
  ∃ u up, URL feed = Some u ∧ url_Parse u = inl up.
Proof.
  rewrite rangeFeeds_flat. intros Hloop Hfeed Hfiles.
  destruct (phase1_loop_stores base (feedRefs feeds) ∅ fetched p p' pos Hloop)
    as [Hempty|(feed' & u & up & Hfeed' & Hu & Hp)].
  - unfold lookupFiles in Hfiles. by destruct (fetched !! pos).
  - rewrite lookup_empty in Hempty. by destruct Hempty.
  - rewrite (feedRefs_functional feeds pos feed feed') by done.
    by exists u, up.
Qed.
End FetchFacts.

Section AuditTheorems.
Context `{Collaborators}.

Lemma auditStep_hasSummary (ca : rolieLabelChecker) (base : Url)
    (advisories : gmap (nat * nat) (option (list AdvisoryFile)))
    (a : audit) (r : nat * nat * Feed) (l : TLPLabel) :
  l ∈ hasSummary (auditStep ca base advisories a r)
  ↔ l ∈ hasSummary a
    ∨ ∃ u files up,
        URL r.2 = Some u ∧ lookupFiles advisories r.1 = Some files
        ∧ url_Parse u = inl up ∧ tlpLabel (TLPLabel_ r.2) = l
        ∧ inventory ca l
          ⊆ absoluteListing (url_ResolveReference base up) files.
Proof.
  unfold auditStep.
  destruct (URL r.2) as [u|] eqn:Hu;
    [|split; [by left|intros [?|(?&?&?&[=]&?)]; done]].
  destruct (lookupFiles advisories r.1) as [files|] eqn:Hf;
    [|split; [by left|intros [?|(?&?&?&?&[=]&?)]; done]].
  destruct (url_Parse u) as [up|err] eqn:Hp;
    [|split; [by left|intros [?|(?&?&?&[= <-]&?&?&?)]; [done|congruence]]].
  cbv zeta. case_decide as Hsub; simpl; rewrite observe_hasSummary.
  - rewrite elem_of_union, elem_of_singleton. split.
    + intros [->|?]; [|by left]. right. by exists u, files, up.
    + intros [?|(?&?&?&?&?&?&?&?)]; [by right|]. left. congruence.
  - split; [by left|].
    intros [?|(u0 & f0 & up0 & [= <-] & [= <-] & Hp0 & <- & Hs)]; [done|].
    rewrite Hp in Hp0. injection Hp0 as <-. done.
Qed.

(** After the loop a label has a summary feed exactly if some audited feed
    declared with it lists every advisory recorded under it. *)
Lemma audit_hasSummary (ca : rolieLabelChecker) (base : Url)
    (advisories : gmap (nat * nat) (option (list AdvisoryFile)))
    (rs : list (nat * nat * Feed)) (a : audit) (l : TLPLabel) :
  l ∈ hasSummary (fold_left (auditStep ca base advisories) rs a)
  ↔ l ∈ hasSummary a
    ∨ ∃ r u files up,
        r ∈ rs ∧ URL r.2 = Some u ∧ lookupFiles advisories r.1 = Some files
        ∧ url_Parse u = inl up ∧ tlpLabel (TLPLabel_ r.2) = l
        ∧ inventory ca l
          ⊆ absoluteListing (url_ResolveReference base up) files.
Proof.
  revert a. induction rs as [|r rs IH]; intros a; simpl.
  - split; [by left|]. intros [?|(r & ? & ? & ? & Hr & _)]; [done|].
    by apply elem_of_nil in Hr.
  - rewrite IH, auditStep_hasSummary. split.
    + intros [[?|(u & files & up & ?)]|(r' & u & files & up & Hr' & ?)].
      * by left.
      * right. exists r, u, files, up. split; [by left|done].
      * right. exists r', u, files, up. split; [by right|done].
    + intros [?|(r' & u & files & up & [->|Hr']%elem_of_cons & ?)].
      * left. by left.
      * left. right. by exists u, files, up.
      * right. by exists r', u, files, up.
Qed.

(** The loop of phase 3 as a whole: a label ends up in [hasSummary] exactly
    if an audited feed declared with it covers its inventory. *)
Lemma phase3_loop_hasSummary (base : Url)
    (advisories : gmap (nat * nat) (option (list AdvisoryFile)))
    (feeds : list (list Feed)) (p : processor) (ca : rolieLabelChecker)
    (l : TLPLabel) :
  labelChecker p = Some ca →
  ∃ p' a,
    rangeFeeds (phase3_feed base advisories) (mkAudit ∅ false false false)
      feeds p = (p', Val a)
    ∧ (l ∈ hasSummary a
       ↔ ∃ r u files up,
           r ∈ feedRefs feeds ∧ URL r.2 = Some u
           ∧ lookupFiles advisories r.1 = Some files
           ∧ url_Parse u = inl up ∧ tlpLabel (TLPLabel_ r.2) = l
           ∧ inventory ca l
             ⊆ absoluteListing (url_ResolveReference base up) files).
Proof.
  intros Hca.
  destruct (phase3_loop base advisories feeds (mkAudit ∅ false false false)
              p ca Hca) as (p' & Hloop & _).
  eexists p', _. split; [exact Hloop|].
  rewrite audit_hasSummary. simpl. split; [|by right].
  intros [Hin|?]; [|done]. by apply not_elem_of_empty in Hin.
Qed.

(** C2: take a feed that is part of the result of phase 1, that is, a feed
    of the provider metadata for which phase 1 stored a listing. In its turn
    of the audit, with the label checker of phase 2 in place, the feed's
    label is recorded in [hasSummary] exactly when the absolute URLs of the
    advisories the feed lists contain every URL recorded under that label:
    a listing that is a strict subset of that inventory records nothing, an
    equal or larger listing records the label. *)
Theorem phase3_feed_summary (base : Url) (feeds : list (list Feed))
    (p0 p1 : processor)
    (fetched : gmap (nat * nat) (option (list AdvisoryFile)))
    (a : audit) (pos : nat * nat) (feed : Feed) (files : list AdvisoryFile)
    (p : processor) (ca : rolieLabelChecker) :
  rangeFeeds (phase1_feed base) ∅ feeds p0 = (p1, Val fetched) →
  (pos, feed) ∈ feedRefs feeds →
  lookupFiles fetched pos = Some files →
  labelChecker p = Some ca →
  ∃ u up,
    URL feed = Some u ∧ url_Parse u = inl up
    ∧ let label := tlpLabel (TLPLabel_ feed) in
      let reference := inventory ca label in
      let listing := absoluteListing (url_ResolveReference base up) files in
      ∃ p' a',
        phase3_feed base fetched a pos feed p = (p', Val a')
        ∧ pmdOnly p p'
        ∧ (reference ⊆ listing → hasSummary a' = {[label]} ∪ hasSummary a)
        ∧ (¬ reference ⊆ listing → hasSummary a' = hasSummary a)
        ∧ (listing ⊂ reference → hasSummary a' = hasSummary a)
        ∧ (listing = reference → label ∈ hasSummary a')
        ∧ (reference ⊆ listing → label ∈ hasSummary a').
Proof.
  intros Hfetch Hfeed Hfiles Hca.
  destruct (phase1_fetched_parses base feeds fetched p0 p1 pos feed files
              Hfetch Hfeed Hfiles) as (u & up & Hu & Hup).
  exists u, up. split; [done|]. split; [done|].
  intros label reference listing.
  destruct (phase3_feed_step base fetched a pos feed p ca Hca)
    as (p' & Hrun & Hp').
  exists p', (auditStep ca base fetched a (pos, feed)).
  split; [done|]. split; [done|].
  unfold auditStep. simpl. rewrite Hu, Hfiles, Hup. cbv zeta.
  fold label. fold reference. fold listing.
  assert (Hyes : reference ⊆ listing →
    hasSummary
      (if decide (reference ⊆ listing)
       then mkAudit ({[label]} ∪ hasSummary (observe label a))
              (hasUnlabeled (observe label a)) (hasWhite (observe label a))
              (hasGreen (observe label a))
       else observe label a) = {[label]} ∪ hasSummary a).
  { intros Hs. rewrite decide_True by done. simpl.
    by rewrite observe_hasSummary. }
  assert (Hno : ¬ reference ⊆ listing →
    hasSummary
      (if decide (reference ⊆ listing)
       then mkAudit ({[label]} ∪ hasSummary (observe label a))
              (hasUnlabeled (observe label a)) (hasWhite (observe label a))
              (hasGreen (observe label a))
       else observe label a) = hasSummary a).
  { intros Hs. rewrite decide_False by done. apply observe_hasSummary. }
  split_and!; [done|done| | |].
  - intros [Hsub Hstrict]. apply Hno. intros Hs. by apply Hstrict.
  - intros Heq. rewrite Hyes by (by rewrite Heq).
    apply elem_of_union_l. by apply elem_of_singleton.
  - intros Hs. rewrite Hyes by done.
    apply elem_of_union_l. by apply elem_of_singleton.
Qed.

(** C5: once the loop of phase 3 has ended, the report adds to the feed sink
    the error that a public feed must exist, followed by warnings only, if
    none of Unlabeled, White, Green is the label of an audited feed, and
    warnings only if one of them is: that error is emitted once or not at
    all, whatever Amber and Red feeds there are. With a label checker in
    place the loop does end and phase 3 returns normally. *)
Theorem phase3_public_feed_error (base : Url)
    (advisories : gmap (nat * nat) (option (list AdvisoryFile)))
    (feeds : list (list Feed)) (p : processor) :
  let observed :=
    ∃ l, l ∈ publicLabels ∧ l ∈ observedLabels advisories feeds in
  Type_ noPublicFeed = ErrorType
  ∧ (∀ p1 a,
       rangeFeeds (phase3_feed base advisories)
         (mkAudit ∅ false false false) feeds p = (p1, Val a) →
       ∃ warns r,
         Forall (λ m, Type_ m = WarnType) warns
         ∧ (observed → phase3_report a p1 = (feedEmit warns p1, r))
         ∧ (¬ observed →
              phase3_report a p1 = (feedEmit (noPublicFeed :: warns) p1, r)))
  ∧ (∀ ca,
       labelChecker p = Some ca →
       ∃ p1 warns,
         pmdOnly p p1
         ∧ Forall (λ m, Type_ m = WarnType) warns
         ∧ (observed →
              phase3 base advisories feeds p = (feedEmit warns p1, Val tt))
         ∧ (¬ observed →
              phase3 base advisories feeds p
              = (feedEmit (noPublicFeed :: warns) p1, Val tt))).
Proof.
  intros observed. split; [done|].
  assert (Hwarn : ∀ ca a,
            Forall (λ m, Type_ m = WarnType) (summaryWarnings ca a)).
  { intros ca a. unfold summaryWarnings. apply Forall_forall.
    by intros m (l & -> & _)%list_elem_of_fmap. }
  assert (Hseen : ∀ ca,
            publicSeen (fold_left (auditStep ca base advisories)
                          (feedRefs feeds) (mkAudit ∅ false false false))
            = true ↔ observed).
  { intros ca. unfold observed.
    rewrite audit_publicSeen, observedLabels_public.
    split; [|by right]. by intros [?|?]. }
  assert (Hsome : ∀ ca, labelChecker p = Some ca →
            ∃ p1 a,
              rangeFeeds (phase3_feed base advisories)
                (mkAudit ∅ false false false) feeds p = (p1, Val a)
              ∧ pmdOnly p p1
              ∧ (observed →
                   phase3_report a p1
                   = (feedEmit (summaryWarnings ca a) p1, Val tt))
              ∧ (¬ observed →
                   phase3_report a p1
                   = (feedEmit (noPublicFeed :: summaryWarnings ca a) p1,
                      Val tt))).
  { intros ca Hca.
    destruct (phase3_loop base advisories feeds
                (mkAudit ∅ false false false) p ca Hca) as (p1 & Hloop & Hp1).
    eexists p1, _. split; [exact Hloop|]. split; [done|].
    assert (labelChecker p1 = Some ca) as Hca1
      by (by rewrite (pmdOnly_labelChecker _ _ Hp1)).
    split; intros Hobs; rewrite (phase3_report_emits _ ca) by done.
    - apply (Hseen ca) in Hobs. by rewrite Hobs.
    - destruct (publicSeen _) eqn:Hpub; [|done].
      destruct Hobs. by apply (Hseen ca). }
  split.
  - intros p1 a Hloop. destruct (labelChecker p) as [ca|] eqn:Hca.
    + destruct (Hsome ca eq_refl) as (p1' & a' & Hloop' & _ & Hyes & Hno).
      rewrite Hloop in Hloop'. injection Hloop' as <- <-.
      by exists (summaryWarnings ca a), (Val tt).
    + rewrite rangeFeeds_flat in Hloop.
      destruct (phase3_loop_nil base advisories (feedRefs feeds) _ _ _ _
                  Hca Hloop) as (-> & Hp1 & Hnone).
      exists [], Panic. split; [done|].
      assert (¬ observed) as Hnot.
      { intros (r & Hr & Ha & _)%observedLabels_public.
        rewrite (Hnone r Hr) in Ha. done. }
      split; [done|]. intros _.
      rewrite phase3_report_nil; [done| |].
      * by rewrite (pmdOnly_labelChecker _ _ Hp1).
      * simpl. apply not_elem_of_empty.
  - intros ca Hca.
    destruct (Hsome ca Hca) as (p1 & a & Hloop & Hp1 & Hyes & Hno).
    exists p1, (summaryWarnings ca a). split; [done|]. split; [done|].
    unfold phase3, mbind, M_bind. rewrite Hloop. by split.
Qed.

(** C6: with a label checker in place, the report after the loop emits, for
    each of the five labels, the warning that the label lacks a feed
    covering all its advisories exactly if advisories are recorded under
    the label and the label is not in [hasSummary]; these warnings follow
    the order of the five labels, none is repeated, and no other warning
    is emitted. *)
Theorem phase3_report_summary_warnings (a : audit) (p : processor)
    (ca : rolieLabelChecker) :
  labelChecker p = Some ca →
  ∃ errs warns,
    phase3_report a p = (feedEmit (errs ++ warns) p, Val tt)
    ∧ Forall (λ m, Type_ m = ErrorType) errs
    ∧ warns
      = map noSummaryFeed
          (filter (λ l, (l ∉ hasSummary a) ∧ (inventory ca l ≠ ∅))
             allLabels)
    ∧ (∀ l, l ∈ allLabels →
         (noSummaryFeed l ∈ warns
          ↔ inventory ca l ≠ ∅ ∧ l ∉ hasSummary a))
    ∧ (∀ m, m ∈ warns →
         Type_ m = WarnType ∧ ∃ l, l ∈ allLabels ∧ m = noSummaryFeed l)
    ∧ NoDup warns.
Proof.
  intros Hca.
  exists (if publicSeen a then [] else [noPublicFeed]), (summaryWarnings ca a).
  split; [by apply phase3_report_emits|].
  split; [destruct (publicSeen a); by repeat constructor|].
  split; [done|]. unfold summaryWarnings. split_and!.
  - intros l Hl. rewrite list_elem_of_fmap. split.
    + intros (l' & Heq & Hin). injection Heq as <-.
      apply list_elem_of_filter in Hin. tauto.
    + intros [? ?]. exists l. split; [done|].
      by apply list_elem_of_filter.
  - intros m (l & -> & Hin)%list_elem_of_fmap. split; [done|].
    exists l. split; [|done]. by apply list_elem_of_filter in Hin as [_ ?].
  - apply NoDup_fmap_2; [by intros l1 l2 [=]|].
    apply NoDup_filter. unfold allLabels.
    apply (NoDup_fmap_1 tlpLevel). vm_compute.
    repeat (apply NoDup_cons; split;
             [rewrite ?elem_of_cons, elem_of_nil; lia|]).
    apply NoDup_nil_2.
Qed.
End AuditTheorems.


(** ** The service document check *)

Section ServiceFacts.
Context `{Collaborators}.

Lemma derefURLs_app (l1 l2 : list Feed) :
  derefURLs (l1 ++ l2)
  = match derefURLs l1, derefURLs l2 with
    | Some us1, Some us2 => Some (us1 ++ us2)
    | _, _ => None
    end.
Proof.
  induction l1 as [|s l1 IH]; simpl.
  - by destruct (derefURLs l2).
  - rewrite IH. destruct (URL s); [|done].
    by destruct (derefURLs l1), (derefURLs l2).
Qed.

Lemma derefURLs_None (l : list Feed) :
  derefURLs l = None ↔ ∃ s, s ∈ l ∧ URL s = None.
Proof.
  induction l as [|s l IH]; simpl.
  - split; [done|]. intros (s & Hs & _). by apply elem_of_nil in Hs.
  - destruct (URL s) as [u|] eqn:Hu.
    + destruct (derefURLs l) as [us|].
      * split; [done|]. intros (s' & [->|Hs']%elem_of_cons & Hn).
        -- congruence.
        -- destruct IH as [_ IH]. discriminate IH. by exists s'.
      * split; [|done]. intros _. destruct IH as [IH _].
        destruct IH as (s' & ? & ?); [done|]. exists s'. split; [by right|done].
    + split; [|done]. intros _. exists s. split; [by left|done].
Qed.


Lemma metadataFeeds_row (r : list Feed) (ffeeds : list string)
    (p : processor) :
  forM (λ ffeeds s,
          match URL s with
          | None => panic
          | Some u => mret (ffeeds ++ [u])
          end) ffeeds r p
  = (p, match derefURLs r with
        | Some us => Val (ffeeds ++ us)
        | None => Panic
        end).
Proof.
  revert ffeeds. induction r as [|s r IH]; intros ffeeds.
  - simpl. by rewrite app_nil_r.
  - rewrite forM_cons. simpl. destruct (URL s) as [u|]; [|done].
    simpl. rewrite IH. destruct (derefURLs r); [|done].
    by rewrite <- app_assoc.
Qed.

Lemma metadataFeeds_rows (feeds : list (list Feed)) (ffeeds : list string)
    (p : processor) :
  forM (λ ffeeds r,
          forM (λ ffeeds s,
                  match URL s with
                  | None => panic
                  | Some u => mret (ffeeds ++ [u])
                  end) ffeeds r) ffeeds feeds p
  = (p, match derefURLs (mjoin feeds) with
        | Some us => Val (ffeeds ++ us)
        | None => Panic
        end).
Proof.
  revert ffeeds. induction feeds as [|r feeds IH]; intros ffeeds.
  - simpl. by rewrite app_nil_r.
  - rewrite forM_cons, metadataFeeds_row. simpl mjoin.
    rewrite derefURLs_app. destruct (derefURLs r) as [us1|]; [|done].
    rewrite IH. destruct (derefURLs (mjoin feeds)); [|done].
    by rewrite <- app_assoc.
Qed.

Lemma metadataFeeds_deref (feeds : list (list Feed)) (p : processor) :
  metadataFeeds feeds p
  = (p, match derefURLs (mjoin feeds) with
        | Some us => Val us
        | None => Panic
        end).
Proof. apply (metadataFeeds_rows feeds []). Qed.

(** [serviceCheck] once the service document is loaded: a nil feed URL
    panics; otherwise the two lists of raw strings are compared. *)
Lemma serviceCheck_loaded (feeds : list (list Feed)) (p p1 : processor)
    (pmd : Url) (baseURL : string) (res : Response)
    (doc : ROLIEServiceDocument) :
  url_Parse (pmdURL p) = inl pmd →
  util_BaseURL pmd = inl baseURL →
  httpGet (baseURL +:+ "service.json")
    (set_badROLIEservice (topic_use (badROLIEservice p)) p) = (p1, inl res) →
  StatusCode res = StatusOK →
  LoadROLIEServiceDocument (ResBody res) = inl doc →
  serviceCheck feeds p
  = match derefURLs (mjoin feeds) with
    | None => (p1, Panic)
    | Some ffeeds =>
        (serviceEmit
           (serviceDrift (sameContentsSS (serviceFeeds doc) ffeeds).1
              (sameContentsSS (serviceFeeds doc) ffeeds).2) p1, Val tt)
    end.
Proof.
  intros Hpmd Hbase Hget Hstatus Hload.
  unfold serviceCheck, mbind, M_bind, get. rewrite Hpmd, Hbase.
  unfold modify, call. rewrite Hget, Hstatus, Z.eqb_refl.
  change (negb true) with false.
  rewrite Hload. cbv beta iota. rewrite metadataFeeds_deref.
  destruct (derefURLs (mjoin feeds)) as [ffeeds|]; [|done].
  simpl app. destruct (sameContentsSS (serviceFeeds doc) ffeeds) as [m1 m2].
  unfold serviceDrift. simpl fst. simpl snd.
  destruct m1 as [|x1 m1], m2 as [|x2 m2]; reflexivity.
Qed.
End ServiceFacts.

Section ServiceTheorems.
Context `{Collaborators}.

(** C10: once the service document is fetched with status 200 and loaded,
    [serviceCheck] panics on any feed collection that holds a feed whose URL
    pointer is nil, whereas each of the three phases of [processROLIEFeeds]
    passes over such a feed without any effect. *)
Theorem serviceCheck_nil_URL_panics (feeds : list (list Feed))
    (p p1 : processor) (pmd : Url) (baseURL : string) (res : Response)
    (doc : ROLIEServiceDocument) :
  url_Parse (pmdURL p) = inl pmd →
  util_BaseURL pmd = inl baseURL →
  httpGet (baseURL +:+ "service.json")
    (set_badROLIEservice (topic_use (badROLIEservice p)) p) = (p1, inl res) →
  StatusCode res = StatusOK →
  LoadROLIEServiceDocument (ResBody res) = inl doc →
  (∃ r s, r ∈ feeds ∧ s ∈ r ∧ URL s = None) →
  serviceCheck feeds p = (p1, Panic)
  ∧ (∀ base advisories a pos feed q,
       URL feed = None →
       phase1_feed base advisories pos feed q = (q, Val advisories)
       ∧ phase2_feed base advisories tt pos feed q = (q, Val tt)
       ∧ phase3_feed base advisories a pos feed q = (q, Val a)).
Proof.
  intros Hpmd Hbase Hget Hstatus Hload (r & s & Hr & Hs & Hnil). split.
  - rewrite (serviceCheck_loaded feeds p p1 pmd baseURL res doc) by done.
    assert (derefURLs (mjoin feeds) = None) as ->; [|done].
    apply derefURLs_None. exists s. split; [|done].
    apply list_elem_of_join. by exists r.
  - intros base advisories a pos feed q Hq.
    unfold phase1_feed, phase2_feed, phase3_feed. by rewrite Hq.
Qed.


End ServiceTheorems.



(** The check on a provider metadata with a feed that has no URL. *)
Lemma serviceCheck_nil_URL_panics_demo :
  serviceCheck [[mkFeed "" None None]] Demo.start
  = (set_badROLIEservice (topic_use Demo.noMessages) Demo.start, Panic)
  ∧ (∀ base advisories a pos feed q,
       URL feed = None →
       phase1_feed base advisories pos feed q = (q, Val advisories)
       ∧ phase2_feed base advisories tt pos feed q = (q, Val tt)
       ∧ phase3_feed base advisories a pos feed q = (q, Val a)).
Proof.
  apply (serviceCheck_nil_URL_panics [[mkFeed "" None None]] Demo.start _
           (Demo.root +:+ "provider-metadata.json") Demo.root
           (@mkResponse Demo.externals StatusOK "200 OK"
              [Demo.root +:+ "green/feed.json";
               Demo.root +:+ "amber/feed.json"])
           (mkServiceDocument
              (mkService
                 [mkWorkspace
                    (map mkCollection
                       [Demo.root +:+ "green/feed.json";
                        Demo.root +:+ "amber/feed.json"])])));
    try reflexivity.
  exists [mkFeed "" None None], (mkFeed "" None None).
  split; [by left|]. split; [by left|reflexivity].
Defined.

(** ** Recoverable and fatal failures *)

Section FailureTheorems.
Context `{Collaborators}.

End FailureTheorems.


(** ** The properties at work on the small instance *)

(** The audit of the amber feed of the scenario, with the label checker
    phase 2 left behind: its listing covers the amber inventory, so the
    label is recorded. *)
Lemma phase3_feed_summary_demo :
  ∃ p' a',
    phase3_feed (H:=Demo.externals) (Demo.root +:+ "provider-metadata.json")
      Demo.fetched (mkAudit ∅ false false false) (1%nat, 0%nat)
      (Demo.feed TLPLabelAmber (Demo.root +:+ "amber/feed.json"))
      (set_labelChecker (Some Demo.amberChecker) Demo.start)
    = (p', Val a')
    ∧ TLPLabelAmber ∈ hasSummary a'.
Proof.
  destruct (phase3_feed_summary (H:=Demo.externals)
              (Demo.root +:+ "provider-metadata.json") Demo.scenario
              Demo.start Demo.start Demo.fetched
              (mkAudit ∅ false false false) (1%nat, 0%nat)
              (Demo.feed TLPLabelAmber (Demo.root +:+ "amber/feed.json"))
              ["y.json"]
              (set_labelChecker (Some Demo.amberChecker) Demo.start)
              Demo.amberChecker)
    as (u & up & Hu & Hup & p' & a' & Hrun & _ & _ & _ & _ & Heq & _).
  - vm_compute. reflexivity.
  - vm_compute. right. left.
  - reflexivity.
  - reflexivity.
  - exists p', a'. split; [exact Hrun|]. apply Heq.
    injection Hu as <-. injection Hup as <-. reflexivity.
Defined.

(** Phase 3 on the scenario: the green feed is public, so only warnings
    (here none) reach the feed sink. *)
Lemma phase3_public_feed_error_demo :
  ∃ p1 warns,
    Forall (λ m, Type_ m = WarnType) warns
    ∧ phase3 (H:=Demo.externals) (Demo.root +:+ "provider-metadata.json")
        Demo.fetched Demo.scenario
        (set_labelChecker (Some Demo.amberChecker) Demo.start)
      = (feedEmit warns p1, Val tt).
Proof.
  destruct (phase3_public_feed_error (H:=Demo.externals)
              (Demo.root +:+ "provider-metadata.json")
              Demo.fetched Demo.scenario
              (set_labelChecker (Some Demo.amberChecker) Demo.start))
    as (_ & _ & Hrun).
  destruct (Hrun Demo.amberChecker eq_refl)
    as (p1 & warns & _ & Hwarn & Hyes & _).
  exists p1, warns. split; [exact Hwarn|]. apply Hyes.
  exists TLPLabelGreen. split; [right; right; left|]. vm_compute. left.
Defined.

(** The report for an audit that found no summary feed at all, with the
    amber inventory of the scenario: one warning, for Amber. *)
Lemma phase3_report_summary_warnings_demo :
  ∃ errs warns,
    phase3_report (H:=Demo.externals) (mkAudit ∅ false false true)
      (set_labelChecker (Some Demo.amberChecker) Demo.start)
    = (feedEmit (errs ++ warns)
         (set_labelChecker (Some Demo.amberChecker) Demo.start), Val tt)
    ∧ warns = [noSummaryFeed TLPLabelAmber].
Proof.
  destruct (phase3_report_summary_warnings (H:=Demo.externals)
              (mkAudit ∅ false false true)
              (set_labelChecker (Some Demo.amberChecker) Demo.start)
              Demo.amberChecker eq_refl)
    as (errs & warns & Hrun & _ & Hwarns & _).
  exists errs, warns. split; [exact Hrun|]. rewrite Hwarns. reflexivity.
Defined.

(** The four cases of [check] in a green feed. *)
Example check_in_green_feed :
  let ca := mkChecker "feed" TLPLabelGreen ∅ in
  map (λ label, messages (badROLIEfeed (check ca label "adv" Demo.start).1))
    [TLPLabelUnlabeled; TLPLabelWhite; TLPLabelGreen; TLPLabelAmber]
  = [[mkMessage InfoType "Found unlabeled advisory %q in feed %q."
        [ArgStr "adv"; ArgStr "feed"]];
     [mkMessage WarnType
        "Found advisory %q labled TLP:%s in feed %q (TLP:%s)."
        [ArgStr "adv"; ArgStr "WHITE"; ArgStr "feed"; ArgStr "GREEN"]];
     [];
     [mkMessage ErrorType
        "%s of TLP level %s must not be listed in feed %s of TLP level %s"
        [ArgStr "adv"; ArgStr "AMBER"; ArgStr "feed"; ArgStr "GREEN"]]].
Proof. reflexivity. Qed.

(** The end-to-end scenario of the design document: one error for the amber
    advisory in the green feed, no completeness warning, no missing public
    feed. *)
Example scenario_run :
  outcome (processROLIEFeeds Demo.scenario Demo.start)
  = ([],
     [mkMessage ErrorType
        "%s of TLP level %s must not be listed in feed %s of TLP level %s"
        [ArgStr Demo.advY; ArgStr "AMBER";
         ArgStr (Demo.root +:+ "green/feed.json"); ArgStr "GREEN"]],
     Val tt).
Proof. vm_compute. reflexivity. Qed.

(** A feed with a malformed URL, a feed that cannot be fetched and a feed
    without URL are passed over; the amber feed after them is still
    checked, and the run ends normally. *)
Example recoverable_run :
  outcome
    (processROLIEFeeds
       [[Demo.feed TLPLabelAmber "%zz";
         Demo.feed TLPLabelAmber "missing/feed.json";
         mkFeed "" None None];
        [Demo.feed TLPLabelAmber "amber/feed.json"]] Demo.start)
  = ([mkMessage ErrorType "Invalid URL %s in feed: %v."
        [ArgStr "%zz"; ArgErr (errOther "invalid URL escape")];
      mkMessage ErrorType "Cannot fetch feed %s: %v"
        [ArgStr (Demo.root +:+ "missing/feed.json");
         ArgErr (errOther "not found")]],
     [noPublicFeed],
     Val tt).
Proof. vm_compute. reflexivity. Qed.

(** An error other than the sentinel ends the whole run at once. *)
Example fatal_run :
  outcome
    (processROLIEFeeds
       [[Demo.feed TLPLabelAmber "broken/feed.json"];
        [Demo.feed TLPLabelAmber "amber/feed.json"]] Demo.start)
  = ([], [], Fail (errOther "validation failed")).
Proof. vm_compute. reflexivity. Qed.


(** * Further properties of the checks *)

(** ** Errors that leave the loops *)

Section ErrorFacts.
Context `{Collaborators}.

(** A loop that ends with an error took it from one turn of its body. *)
Lemma forM_Fail {A B} (body : A → B → M A) (a : A) (l : list B)
    (p p' : processor) (e : error) :
  forM body a l p = (p', Fail e) →
  ∃ a0 x p0, x ∈ l ∧ body a0 x p0 = (p', Fail e).
Proof.
  revert a p. induction l as [|x l IH]; intros a p; [done|].
  rewrite forM_cons.
  destruct (body a x p) as [p1 [a1|e1|]] eqn:Hstep; [| |done].
  - intros (a0 & x0 & p0 & Hin & Hx)%IH.
    exists a0, x0, p0. split; [by right|done].
  - intros [= <- <-]. exists a, x, p. split; [by left|done].
Qed.

(** An error that leaves the body of the loop of phase 1 is one that
    [rolieFeedEntries] returned for the resolved URL of the feed, and it is
    not the sentinel. *)
Lemma phase1_feed_Fail (base : Url)
    (advisories : gmap (nat * nat) (option (list AdvisoryFile)))
    (pos : nat * nat) (feed : Feed) (p p' : processor) (e : error) :
  phase1_feed base advisories pos feed p = (p', Fail e) →
  e ≠ errContinue
  ∧ ∃ u up q advs,
      URL feed = Some u ∧ url_Parse u = inl up
      ∧ rolieFeedEntries (url_String (url_ResolveReference base up)) q
        = (p', (advs, Some e)).
Proof.
  unfold phase1_feed. destruct (URL feed) as [u|]; [|done].
  destruct (url_Parse u) as [up|err] eqn:Hup; [|done].
  unfold mbind, M_bind, modify, call.
  destruct (rolieFeedEntries _ _) as [p1 [advs [e1|]]] eqn:Hfetch; [|done].
  destruct (decide (e1 ≠ errContinue)); [|done]. intros [= <- <-].
  split; [done|]. by eexists u, up, _, advs.
Qed.

(** Likewise in phase 2, for [integrity] and the base path of the feed. *)
Lemma phase2_feed_Fail (base : Url)
    (advisories : gmap (nat * nat) (option (list AdvisoryFile)))
    (pos : nat * nat) (feed : Feed) (p p' : processor) (e : error) :
  phase2_feed base advisories tt pos feed p = (p', Fail e) →
  e ≠ errContinue
  ∧ ∃ u up files feedBase q,
      URL feed = Some u ∧ url_Parse u = inl up
      ∧ lookupFiles advisories pos = Some files
      ∧ util_BaseURL (url_ResolveReference base up) = inl feedBase
      ∧ integrity files feedBase q = (p', Some e).
Proof.
  unfold phase2_feed. destruct (URL feed) as [u|]; [|done].
  destruct (lookupFiles advisories pos) as [files|]; [|done].
  destruct (url_Parse u) as [up|err] eqn:Hup; [|done].
  destruct (util_BaseURL _) as [feedBase|err] eqn:Hb; [|done].
  unfold mbind, M_bind, modify, call.
  destruct (integrity _ _ _) as [p1 [e1|]] eqn:Hwalk; [|done].
  destruct (decide (e1 ≠ errContinue)); [|done]. intros [= <- <-].
  split; [done|]. by eexists u, up, files, feedBase, _.
Qed.

Lemma phase3_feed_no_Fail (base : Url)
    (advisories : gmap (nat * nat) (option (list AdvisoryFile)))
    (a : audit) (pos : nat * nat) (feed : Feed) (p p' : processor)
    (e : error) :
  phase3_feed base advisories a pos feed p ≠ (p', Fail e).
Proof.
  unfold phase3_feed. destruct (URL feed) as [u|]; [|done].
  destruct (lookupFiles advisories pos) as [files|]; [|done].
  destruct (url_Parse u) as [up|err]; [|done].
  unfold mbind, M_bind.
  destruct (labelChecker p) as [ca|] eqn:Hca.
  - rewrite (referenceOf_inventory _ _ _ Hca).
    destruct (listing_loop u (url_ResolveReference base up) files ∅ p)
      as (p1 & -> & _).
    by destruct (containsAllKeys _ _).
  - by rewrite (referenceOf_nil _ _ Hca).
Qed.

Lemma summaryStep_no_Fail (a : audit) (label : TLPLabel) (p p' : processor)
    (e : error) :
  summaryStep a tt label p ≠ (p', Fail e).
Proof.
  unfold summaryStep. destruct (bool_decide _); [done|].
  unfold mbind, M_bind. destruct (labelChecker p) as [ca|] eqn:Hca.
  - rewrite (referenceOf_inventory _ _ _ Hca). by destruct (bool_decide _).
  - by rewrite (referenceOf_nil _ _ Hca).
Qed.

Lemma phase3_no_Fail (base : Url)
    (advisories : gmap (nat * nat) (option (list AdvisoryFile)))
    (feeds : list (list Feed)) (p p' : processor) (e : error) :
  phase3 base advisories feeds p ≠ (p', Fail e).
Proof.
  unfold phase3, mbind, M_bind. rewrite rangeFeeds_flat.
  destruct (forM _ _ (feedRefs feeds) p) as [p1 [a|e1|]] eqn:Hloop; [| |done].
  - unfold phase3_report, mbind, M_bind.
    assert (∀ q, forM (summaryStep a) tt allLabels q ≠ (p', Fail e)) as Hsum.
    { intros q (a0 & l & q0 & _ & Hstep)%forM_Fail. destruct a0.
      by apply summaryStep_no_Fail in Hstep. }
    destruct (negb (hasWhite a) && negb (hasGreen a) && negb (hasUnlabeled a));
      apply Hsum.
  - apply forM_Fail in Hloop as (a0 & [pos feed] & p0 & _ & Hstep).
    by apply phase3_feed_no_Fail in Hstep.
Qed.

(** X1: an error [processROLIEFeeds] returns is either the parse error of
    the provider metadata URL, returned with the processor untouched, or,
    when that URL parses, an error other than the continue sentinel that
    [rolieFeedEntries] returned for the resolved URL of a feed of the
    provider metadata, or that [integrity] returned for the listing and the
    base path of such a feed; the processor is then as that collaborator
    left it. Phase 3 never returns an error. *)
Theorem processROLIEFeeds_error (feeds : list (list Feed)) (p : processor) :
  (∀ p' e,
     processROLIEFeeds feeds p = (p', Fail e) →
     (url_Parse (pmdURL p) = inr e ∧ p' = p)
     ∨ ∃ base pos feed u up,
         url_Parse (pmdURL p) = inl base
         ∧ e ≠ errContinue
         ∧ (pos, feed) ∈ feedRefs feeds
         ∧ URL feed = Some u ∧ url_Parse u = inl up
         ∧ ((∃ q advs,
               rolieFeedEntries (url_String (url_ResolveReference base up)) q
               = (p', (advs, Some e)))
            ∨ (∃ files feedBase q,
                 util_BaseURL (url_ResolveReference base up) = inl feedBase
                 ∧ integrity files feedBase q = (p', Some e))))
  ∧ (∀ base advisories q q' e,
       phase3 base advisories feeds q ≠ (q', Fail e)).
Proof.
  split; [|intros base advisories q q' e; apply phase3_no_Fail].
  intros p' e.
  unfold processROLIEFeeds, mbind, M_bind, get, modify.
  destruct (url_Parse (pmdURL p)) as [base|err].
  - intros Hrun. right.
    rewrite rangeFeeds_flat in Hrun.
    destruct (forM _ _ (feedRefs feeds) _) as [p1 [fetched|e1|]] eqn:Hloop1;
      [| |done].
    + rewrite rangeFeeds_flat in Hrun.
      destruct (forM _ _ (feedRefs feeds) p1) as [p2 [[]|e2|]] eqn:Hloop2;
        [| |done].
      * by apply phase3_no_Fail in Hrun.
      * injection Hrun as <- <-.
        apply forM_Fail in Hloop2 as (a0 & [pos feed] & p0 & Hin & Hstep).
        destruct a0.
        apply phase2_feed_Fail in Hstep
          as (He & u & up & files & feedBase & q & Hu & Hup & _ & Hb & Hwalk).
        exists base, pos, feed, u, up. split_and!; try done.
        right. by exists files, feedBase, q.
    + injection Hrun as <- <-.
      apply forM_Fail in Hloop1 as (a0 & [pos feed] & p0 & Hin & Hstep).
      apply phase1_feed_Fail in Hstep
        as (He & u & up & q & advs & Hu & Hup & Hfetch).
      exists base, pos, feed, u, up. split_and!; try done.
      left. by exists q, advs.
  - intros [= <- <-]. by left.
Qed.
End ErrorFacts.

(** A run that ends with the error of a feed that fails validation: the
    error is the one [rolieFeedEntries] returned for the feed. *)
Lemma processROLIEFeeds_error_demo :
  ∃ base pos feed u up,
    url_Parse (pmdURL Demo.start) = inl base
    ∧ errOther "validation failed" ≠ errContinue
    ∧ (pos, feed) ∈ feedRefs [[Demo.feed TLPLabelAmber "broken/feed.json"]]
    ∧ URL feed = Some u ∧ url_Parse u = inl up
    ∧ ((∃ q advs,
          rolieFeedEntries (url_String (url_ResolveReference base up)) q
          = (useFeedSink Demo.start,
             (advs, Some (errOther "validation failed"))))
       ∨ (∃ files feedBase q,
            util_BaseURL (url_ResolveReference base up) = inl feedBase
            ∧ integrity files feedBase q
              = (useFeedSink Demo.start,
                 Some (errOther "validation failed")))).
Proof.
  destruct (proj1 (processROLIEFeeds_error (H:=Demo.externals)
                     [[Demo.feed TLPLabelAmber "broken/feed.json"]]
                     Demo.start)
              (useFeedSink Demo.start) (errOther "validation failed"))
    as [[Hparse _]|Hcollab].
  - vm_compute. reflexivity.
  - discriminate Hparse.
  - exact Hcollab.
Defined.

(** ** Feeds that phase 1 does not store *)

Section SkipFacts.
Context `{Collaborators}.

Lemma forM_skip {A B} (body : A → B → M A) (a : A) (l : list B)
    (p : processor) :
  (∀ x, x ∈ l → body a x p = (p, Val a)) →
  forM body a l p = (p, Val a).
Proof.
  induction l as [|x l IH]; intros Hskip; [done|].
  rewrite forM_cons, Hskip by (by left).
  apply IH. intros y Hy. apply Hskip. by right.
Qed.

Lemma feedRefs_elem_of (feeds : list (list Feed)) (r : nat * nat * Feed) :
  r ∈ feedRefs feeds → r.2 ∈ mjoin feeds.
Proof.
  destruct r as [pos feed]. intros (fs & Hfs & Hfeed)%feedRefs_lookup.
  apply list_elem_of_join. exists fs.
  split; by eapply list_elem_of_lookup_2.
Qed.

(** X2: a feed of the provider metadata that has no URL, or whose URL does
    not parse, gets no listing in phase 1, so phases 2 and 3 pass over it
    without any effect: it is never walked and never audited, and a
    malformed URL is reported by phase 1 only. *)
Theorem unstored_feed_skipped (base : Url) (feeds : list (list Feed))
    (p0 p1 : processor)
    (fetched : gmap (nat * nat) (option (list AdvisoryFile)))
    (pos : nat * nat) (feed : Feed) :
  rangeFeeds (phase1_feed base) ∅ feeds p0 = (p1, Val fetched) →
  (pos, feed) ∈ feedRefs feeds →
  URL feed = None ∨ (∃ u err, URL feed = Some u ∧ url_Parse u = inr err) →
  lookupFiles fetched pos = None
  ∧ ∀ a q,
      phase2_feed base fetched tt pos feed q = (q, Val tt)
      ∧ phase3_feed base fetched a pos feed q = (q, Val a).
Proof.
  rewrite rangeFeeds_flat. intros Hloop Hfeed Hbad.
  assert (fetched !! pos = None) as Hnone.
  { destruct (fetched !! pos) as [x|] eqn:Hx; [|done].
    destruct (phase1_loop_stores base (feedRefs feeds) ∅ fetched p0 p1 pos
                Hloop) as [Hempty|(feed' & u & up & Hfeed' & Hu & Hp)].
    - by rewrite Hx.
    - rewrite lookup_empty in Hempty. by destruct Hempty.
    - rewrite <- (feedRefs_functional feeds pos feed feed') in Hu by done.
      destruct Hbad as [Hnil|(u' & err & Hu' & Hp')]; congruence. }
  assert (lookupFiles fetched pos = None) as Hfiles.
  { unfold lookupFiles. by rewrite Hnone. }
  split; [done|]. intros a q. unfold phase2_feed, phase3_feed.
  rewrite Hfiles. by destruct (URL feed).
Qed.

(** X3: when all feeds of the provider metadata lack a URL (the empty list
    included), the three loops do nothing and only the report runs: the
    error that a public feed must exist is emitted, then a warning for every
    label that has advisories in the label checker left from before; with a
    nil label checker the function panics right after that error. *)
Theorem processROLIEFeeds_no_URLs (feeds : list (list Feed)) (p : processor)
    (base : Url) :
  url_Parse (pmdURL p) = inl base →
  Forall (λ feed, URL feed = None) (mjoin feeds) →
  processROLIEFeeds feeds p
  = match labelChecker p with
    | Some ca =>
        (feedEmit
           (noPublicFeed
            :: summaryWarnings ca (mkAudit ∅ false false false))
           (useFeedSink p), Val tt)
    | None => (feedEmit [noPublicFeed] (useFeedSink p), Panic)
    end.
Proof.
  intros Hbase Hnil.
  assert (Hurl : ∀ r, r ∈ feedRefs feeds → URL r.2 = None).
  { intros r Hr%feedRefs_elem_of.
    by apply (proj1 (Forall_forall _ _) Hnil). }
  unfold processROLIEFeeds, mbind, M_bind, get, modify. rewrite Hbase.
  fold (useFeedSink p).
  rewrite rangeFeeds_flat, forM_skip.
  2:{ intros r Hr. unfold phase1_feed. by rewrite (Hurl r Hr). }
  rewrite rangeFeeds_flat, forM_skip.
  2:{ intros r Hr. unfold phase2_feed. by rewrite (Hurl r Hr). }
  unfold phase3, mbind, M_bind. rewrite rangeFeeds_flat, forM_skip.
  2:{ intros r Hr. unfold phase3_feed. by rewrite (Hurl r Hr). }
  change (labelChecker p) with (labelChecker (useFeedSink p)).
  destruct (labelChecker (useFeedSink p)) as [ca|] eqn:Hca.
  - by rewrite (phase3_report_emits _ ca).
  - rewrite phase3_report_nil; [done|done|]. apply not_elem_of_empty.
Qed.

(** X4: phase 2 gives every feed it walks a label checker of its own, with
    the resolved URL and the declared label of the feed and an empty
    inventory; whatever checker was there before is dropped, so the walk of
    a feed does not depend on the advisories seen in earlier feeds. *)
Theorem phase2_feed_fresh_checker (base : Url)
    (advisories : gmap (nat * nat) (option (list AdvisoryFile)))
    (pos : nat * nat) (feed : Feed) (p : processor) (u : string)
    (files : list AdvisoryFile) (up : Url) (feedBase : string) :
  URL feed = Some u →
  lookupFiles advisories pos = Some files →
  url_Parse u = inl up →
  util_BaseURL (url_ResolveReference base up) = inl feedBase →
  ∃ ca,
    feedURL ca = url_String (url_ResolveReference base up)
    ∧ feedLabel ca = tlpLabel (TLPLabel_ feed)
    ∧ (∀ label, inventory ca label = ∅)
    ∧ (∀ old,
         phase2_feed base advisories tt pos feed (set_labelChecker old p)
         = match integrity files feedBase (set_labelChecker (Some ca) p) with
           | (p', Some e) =>
               if decide (e ≠ errContinue) then (p', Fail e)
               else (p', Val tt)
           | (p', None) => (p', Val tt)
           end).
Proof.
  intros Hu Hfiles Hp Hb.
  exists (mkChecker (url_String (url_ResolveReference base up))
            (tlpLabel (TLPLabel_ feed)) ∅).
  split; [done|]. split; [done|]. split.
  - intros label. unfold inventory. simpl. by rewrite lookup_empty.
  - intros old. unfold phase2_feed. rewrite Hu, Hfiles, Hp, Hb.
    unfold mbind, M_bind, modify, call.
    change (set_labelChecker ?c (set_labelChecker old p))
      with (set_labelChecker c p).
    destruct (integrity _ _ _) as [p' [e|]]; [|done].
    by destruct (decide (e ≠ errContinue)).
Qed.
End SkipFacts.

(** Phase 1 on a provider metadata whose only feed has a malformed URL. *)
Lemma unstored_feed_skipped_demo :
  lookupFiles (H:=Demo.externals) ∅ (0%nat, 0%nat) = None
  ∧ ∀ a q,
      phase2_feed (Demo.root +:+ "provider-metadata.json") ∅ tt
        (0%nat, 0%nat) (Demo.feed TLPLabelAmber "%zz") q = (q, Val tt)
      ∧ phase3_feed (Demo.root +:+ "provider-metadata.json") ∅ a
          (0%nat, 0%nat) (Demo.feed TLPLabelAmber "%zz") q = (q, Val a).
Proof.
  apply (unstored_feed_skipped (H:=Demo.externals)
           (Demo.root +:+ "provider-metadata.json")
           [[Demo.feed TLPLabelAmber "%zz"]] Demo.start
           (pmdEmit [invalidURLMessage "%zz" (errOther "invalid URL escape")]
              Demo.start)).
  - vm_compute. reflexivity.
  - vm_compute. left.
  - right. exists "%zz", (errOther "invalid URL escape").
    split; reflexivity.
Defined.

(** A provider metadata with two feeds, neither with a URL, on a processor
    that still holds the label checker of an earlier run with an amber
    advisory: no feed is fetched, walked or audited, and the report emits
    the error that a public feed must exist and the warning for Amber. *)
Lemma processROLIEFeeds_no_URLs_demo :
  processROLIEFeeds
    [[mkFeed "" None None]; [mkFeed "" (Some TLPLabelAmber) None]]
    (set_labelChecker (Some Demo.amberChecker) Demo.start)
  = (feedEmit [noPublicFeed; noSummaryFeed TLPLabelAmber]
       (useFeedSink (set_labelChecker (Some Demo.amberChecker) Demo.start)),
     Val tt).
Proof.
  rewrite (processROLIEFeeds_no_URLs (H:=Demo.externals)
             [[mkFeed "" None None]; [mkFeed "" (Some TLPLabelAmber) None]]
             (set_labelChecker (Some Demo.amberChecker) Demo.start)
             (Demo.root +:+ "provider-metadata.json")).
  - reflexivity.
  - reflexivity.
  - repeat constructor.
Defined.

(** The checker phase 2 makes for the amber feed of the scenario. *)
Lemma phase2_feed_fresh_checker_demo :
  ∃ ca, feedLabel ca = TLPLabelAmber ∧ inventory ca TLPLabelAmber = ∅.
Proof.
  destruct (phase2_feed_fresh_checker (H:=Demo.externals)
              (Demo.root +:+ "provider-metadata.json") Demo.fetched
              (1%nat, 0%nat)
              (Demo.feed TLPLabelAmber (Demo.root +:+ "amber/feed.json"))
              Demo.start (Demo.root +:+ "amber/feed.json") ["y.json"]
              (Demo.root +:+ "amber/feed.json") (Demo.root +:+ "amber/")
              eq_refl eq_refl eq_refl eq_refl)
    as (ca & _ & Hlabel & Hempty & _).
  exists ca. split; [exact Hlabel|apply Hempty].
Defined.

(** ** Runs of the label checker *)

Section CheckRuns.
Context `{Collaborators}.

Lemma feedEmit_app (ms1 ms2 : list Message) (p : processor) :
  feedEmit (ms1 ++ ms2) p = feedEmit ms2 (feedEmit ms1 p).
Proof. apply fold_left_app. Qed.

(** One call of [check]: the messages go to the feed sink, the advisory to
    the set under its label. *)
Lemma check_run (ca : rolieLabelChecker) (A : TLPLabel) (advisory : string)
    (p : processor) :
  ∃ ms,
    check ca A advisory p
    = (feedEmit ms p,
       Val (mkChecker (feedURL ca) (feedLabel ca)
              (<[A := {[advisory]} ∪ inventory ca A]> (advisories ca))))
    ∧ length ms
      = (if decide (tlpLevel A ≠ tlpLevel (feedLabel ca)) then 1 else 0)%nat.
Proof.
  unfold check, inventory, mbind, M_bind.
  assert (match advisories ca !! A with Some advs => advs | None => ∅ end
          = default ∅ (advisories ca !! A)) as -> by done.
  destruct (Z.ltb_spec (tlpLevel A) (tlpLevel (feedLabel ca))).
  - rewrite decide_True by lia.
    destruct (tlpLevel A =? 0); eexists [mkMessage _ _ _]; by split.
  - destruct (Z.ltb_spec (tlpLevel (feedLabel ca)) (tlpLevel A)).
    + rewrite decide_True by lia. eexists [mkMessage _ _ _]. by split.
    + rewrite decide_False by lia. exists []. by split.
Qed.

Lemma labelled_cons (label : TLPLabel) (la : TLPLabel * string)
    (advs : list (TLPLabel * string)) :
  labelled label (la :: advs)
  = (if decide (la.1 = label) then {[la.2]} else ∅) ∪ labelled label advs.
Proof.
  unfold labelled. rewrite filter_cons. destruct (decide (la.1 = label)).
  - done.
  - by rewrite (left_id_L ∅ (∪)).
Qed.

(** X5: a run of calls of [check] on one checker always ends normally; it
    leaves the feed URL and the feed label alone, the inventory of every
    label is the former one together with exactly the advisories that came
    with that label (so nothing is ever removed), and the feed sink gets one
    message for each advisory whose rank is not the rank of the feed. *)
Theorem checkAll_inventory (ca : rolieLabelChecker)
    (advs : list (TLPLabel * string)) (p : processor) :
  ∃ ms ca',
    checkAll ca advs p = (feedEmit ms p, Val ca')
    ∧ feedURL ca' = feedURL ca
    ∧ feedLabel ca' = feedLabel ca
    ∧ (∀ label, inventory ca' label = inventory ca label ∪ labelled label advs)
    ∧ length ms = length (misplaced (feedLabel ca) advs).
Proof.
  unfold checkAll. revert ca p.
  induction advs as [|[A adv] advs IH]; intros ca p.
  - exists [], ca. split_and!; try done.
    intros label. unfold labelled. simpl. by rewrite (right_id_L ∅ (∪)).
  - rewrite forM_cons. simpl.
    destruct (check_run ca A adv p) as (ms1 & -> & Hlen1).
    set (ca1 := mkChecker _ _ _).
    destruct (IH ca1 (feedEmit ms1 p)) as (ms2 & ca' & -> & Hu & Hf & Hinv & Hlen2).
    exists (ms1 ++ ms2), ca'. split; [by rewrite feedEmit_app|].
    split; [done|]. split; [done|]. split.
    + intros label. rewrite Hinv, labelled_cons. simpl.
      unfold inventory at 1. subst ca1. simpl.
      destruct (decide (A = label)) as [->|Hne].
      * rewrite lookup_insert_eq. simpl. apply set_eq. intros x.
        rewrite !elem_of_union. tauto.
      * rewrite lookup_insert_ne by done. fold (inventory ca label).
        by rewrite (left_id_L ∅ (∪)).
    + rewrite length_app, Hlen1, Hlen2. unfold misplaced.
      rewrite filter_cons. simpl.
      change (feedLabel ca1) with (feedLabel ca).
      by destruct (decide (tlpLevel A ≠ tlpLevel (feedLabel ca))).
Qed.

(** X6: calling [check] a second time for the same advisory and label
    repeats the diagnostic of the first call and leaves the checker as the
    first call left it. *)
Theorem check_twice (ca : rolieLabelChecker) (A : TLPLabel)
    (advisory : string) (p : processor) :
  ∃ ms ca',
    check ca A advisory p = (feedEmit ms p, Val ca')
    ∧ check ca' A advisory (feedEmit ms p)
      = (feedEmit ms (feedEmit ms p), Val ca').
Proof.
  set (m := advisories ca).
  set (s := match m !! A with Some advs => advs | None => ∅ end).
  assert (Hmap : <[A := {[advisory]} ∪ ({[advisory]} ∪ s)]>
                   (<[A := {[advisory]} ∪ s]> m)
                 = <[A := {[advisory]} ∪ s]> m).
  { rewrite insert_insert_eq. f_equal. apply set_eq. intros x.
    rewrite !elem_of_union. tauto. }
  unfold check, mbind, M_bind. fold m. fold s.
  destruct (tlpLevel A <? tlpLevel (feedLabel ca)) eqn:H1;
    [destruct (tlpLevel A =? 0) eqn:H2
    |destruct (tlpLevel (feedLabel ca) <? tlpLevel A) eqn:H3];
    [eexists [mkMessage _ _ _], _|eexists [mkMessage _ _ _], _
    |eexists [mkMessage _ _ _], _|eexists [], _];
    (split; [reflexivity|]); simpl;
    rewrite lookup_insert_eq, Hmap, ?H1, ?H2, ?H3; reflexivity.
Qed.
End CheckRuns.

(** ** The slice and map helpers, further *)

Lemma filter_absent_nil (A B : list string) :
  filter (λ x, x ∉ B) A = [] ↔ ∀ x, x ∈ A → x ∈ B.
Proof.
  split.
  - intros Hnil x Hx. destruct (decide (x ∈ B)) as [|Hout]; [done|].
    assert (x ∈ filter (λ x, x ∉ B) A) as Hin
      by (by apply list_elem_of_filter).
    rewrite Hnil in Hin. by apply elem_of_nil in Hin.
  - intros Hall. destruct (filter (λ x, x ∉ B) A) as [|y l] eqn:Hf; [done|].
    assert (y ∈ filter (λ x, x ∉ B) A) as Hin by (rewrite Hf; by left).
    apply list_elem_of_filter in Hin as [Hout Hy]. destruct Hout. auto.
Qed.

(** X7: [sameContentsSS] answers whether two slices have the same contents:
    both results are empty exactly if every string of either slice occurs in
    the other. No string is ever in both results, a result is never longer
    than the slice it is taken from, and swapping the arguments swaps the
    results. *)
Theorem sameContentsSS_same_contents (A B : list string) :
  (sameContentsSS A B = ([], []) ↔ ∀ x, x ∈ A ↔ x ∈ B)
  ∧ (∀ x, ¬ (x ∈ (sameContentsSS A B).1 ∧ x ∈ (sameContentsSS A B).2))
  ∧ (length (sameContentsSS A B).1 ≤ length A)%nat
  ∧ (length (sameContentsSS A B).2 ≤ length B)%nat
  ∧ sameContentsSS B A
    = ((sameContentsSS A B).2, (sameContentsSS A B).1).
Proof.
  rewrite !sameContentsSS_eq. simpl. split_and!.
  - split.
    + intros [= HA HB].
      pose proof (proj1 (filter_absent_nil A B) HA).
      pose proof (proj1 (filter_absent_nil B A) HB). split; auto.
    + intros Hsame. f_equal; apply filter_absent_nil; intros x; apply Hsame.
  - intros x [[HxB HxA]%list_elem_of_filter [_ HxB']%list_elem_of_filter].
    done.
  - apply length_filter.
  - apply length_filter.
  - done.
Qed.

(** X8: [containsAllSS] is the membership test of a slice: it is true
    exactly if the string occurs in the slice, so it is false on the empty
    slice, a disjunction over concatenated slices, and blind to the order
    of the slice. *)
Theorem containsAllSS_membership (slice : list string) (str : string) :
  (containsAllSS slice str = true ↔ str ∈ slice)
  ∧ (containsAllSS slice str = false ↔ str ∉ slice)
  ∧ containsAllSS [] str = false
  ∧ (∀ slice',
       containsAllSS (slice ++ slice') str
       = containsAllSS slice str || containsAllSS slice' str)
  ∧ (∀ slice', slice ≡ₚ slice' →
       containsAllSS slice' str = containsAllSS slice str).
Proof.
  assert (Hfalse : ∀ l, containsAllSS l str = false ↔ str ∉ l).
  { intros l. rewrite <- containsAllSS_elem_of.
    by destruct (containsAllSS l str). }
  split_and!.
  - apply containsAllSS_elem_of.
  - apply Hfalse.
  - done.
  - intros slice'. induction slice as [|e slice IH]; [done|]. simpl.
    by destruct (String.eqb e str).
  - intros slice' Hperm.
    destruct (containsAllSS slice str) eqn:Hc.
    + apply containsAllSS_elem_of. rewrite <- Hperm.
      by apply containsAllSS_elem_of.
    + apply Hfalse. rewrite <- Hperm. by apply Hfalse.
Qed.

(** X9: [containsAllKeys] decides inclusion of key sets: it is true exactly
    if every key of the first map is a key of the second, and false exactly
    if some key of the first is missing in the second. So the empty map is
    contained in every map, a non-empty map in no empty one, every map in
    itself, and containment passes along a chain of maps. *)
Theorem containsAllKeys_inclusion (m1 m2 : gset string) :
  (containsAllKeys m1 m2 = true ↔ m1 ⊆ m2)
  ∧ (containsAllKeys m1 m2 = false ↔ ∃ k, k ∈ m1 ∧ k ∉ m2)
  ∧ containsAllKeys ∅ m2 = true
  ∧ containsAllKeys m1 m1 = true
  ∧ (m1 ≠ ∅ → containsAllKeys m1 ∅ = false)
  ∧ (∀ m3, containsAllKeys m1 m2 = true → containsAllKeys m2 m3 = true →
       containsAllKeys m1 m3 = true).
Proof.
  assert (Hfalse : containsAllKeys m1 m2 = false ↔ ∃ k, k ∈ m1 ∧ k ∉ m2).
  { split.
    - intros Hc.
      destruct (decide (Exists (λ k, k ∉ m2) (elements m1))) as [Hex|Hall].
      + apply Exists_exists in Hex as (k & Hk & Hout).
        exists k. split; [by apply elem_of_elements|done].
      + apply not_Exists_Forall in Hall; [|apply _].
        assert (containsAllKeys m1 m2 = true); [|congruence].
        apply containsAllKeys_subseteq. intros k Hk%elem_of_elements.
        apply (proj1 (Forall_forall _ _) Hall) in Hk. simpl in Hk.
        by apply dec_stable.
    - intros (k & Hk & Hout).
      destruct (containsAllKeys m1 m2) eqn:Hc; [|done].
      apply containsAllKeys_subseteq in Hc. destruct Hout. by apply Hc. }
  split_and!.
  - apply containsAllKeys_subseteq.
  - apply Hfalse.
  - apply containsAllKeys_subseteq. apply empty_subseteq.
  - by apply containsAllKeys_subseteq.
  - intros Hne. destruct (containsAllKeys m1 ∅) eqn:Hc; [|done].
    apply containsAllKeys_subseteq in Hc. destruct Hne.
    apply set_eq. intros k. split; [apply Hc|].
    intros Hk. by apply not_elem_of_empty in Hk.
  - intros m3 H12%containsAllKeys_subseteq H23%containsAllKeys_subseteq.
    apply containsAllKeys_subseteq. by transitivity m2.
Qed.

(** ** The service document check, further *)

Section ServiceMore.
Context `{Collaborators}.

Lemma serviceFeeds_collection (c : list ROLIEServiceWorkspaceCollection)
    (sfeeds : list string) :
  fold_left (λ sfeeds fd, sfeeds ++ [HRef fd]) c sfeeds
  = sfeeds ++ map HRef c.
Proof.
  revert sfeeds. induction c as [|fd c IH]; intros sfeeds; simpl.
  - by rewrite app_nil_r.
  - rewrite IH. by rewrite <- app_assoc.
Qed.

Lemma serviceFeeds_flat (doc : ROLIEServiceDocument) :
  serviceFeeds doc
  = map HRef (mjoin (map Collection (Workspace (Service doc)))).
Proof.
  unfold serviceFeeds. generalize (Workspace (Service doc)) as ws.
  assert (∀ ws sfeeds,
            fold_left
              (λ sfeeds col,
                 fold_left (λ sfeeds fd, sfeeds ++ [HRef fd])
                   (Collection col) sfeeds) ws sfeeds
            = sfeeds ++ map HRef (mjoin (map Collection ws))) as Hgen.
  { induction ws as [|col ws IH]; intros sfeeds; simpl.
    - by rewrite app_nil_r.
    - rewrite IH, serviceFeeds_collection, map_app. by rewrite <- app_assoc. }
  intros ws. apply (Hgen ws []).
Qed.

(** X10: with the service document loaded and no nil feed URL,
    [serviceCheck] returns normally and adds at most two messages, both
    errors and both to the service sink; it adds none exactly if the hrefs
    of all collections of all workspaces and the feed URLs of the provider
    metadata are the same strings, whatever their order and number. *)
Theorem serviceCheck_drift (feeds : list (list Feed)) (p p1 : processor)
    (pmd : Url) (baseURL : string) (res : Response)
    (doc : ROLIEServiceDocument) (ffeeds : list string) :
  url_Parse (pmdURL p) = inl pmd →
  util_BaseURL pmd = inl baseURL →
  httpGet (baseURL +:+ "service.json") (useServiceSink p) = (p1, inl res) →
  StatusCode res = StatusOK →
  LoadROLIEServiceDocument (ResBody res) = inl doc →
  derefURLs (mjoin feeds) = Some ffeeds →
  ∃ ms,
    serviceCheck feeds p = (serviceEmit ms p1, Val tt)
    ∧ Forall (λ m, Type_ m = ErrorType) ms
    ∧ (length ms ≤ 2)%nat
    ∧ (ms = []
       ↔ ∀ x, x ∈ map HRef (mjoin (map Collection (Workspace (Service doc))))
              ↔ x ∈ ffeeds).
Proof.
  intros Hpmd Hbase Hget Hstatus Hload Hderef.
  rewrite <- serviceFeeds_flat.
  pose proof (serviceCheck_loaded feeds p p1 pmd baseURL res doc
                Hpmd Hbase Hget Hstatus Hload) as Hrun.
  rewrite Hderef, sameContentsSS_eq in Hrun. simpl in Hrun.
  eexists. split; [exact Hrun|].
  set (m1 := filter (λ x, x ∉ ffeeds) (serviceFeeds doc)).
  set (m2 := filter (λ x, x ∉ serviceFeeds doc) ffeeds).
  assert (Hsame : m1 = [] ∧ m2 = []
                  ↔ ∀ x, x ∈ serviceFeeds doc ↔ x ∈ ffeeds).
  { subst m1 m2. rewrite !filter_absent_nil. split.
    - intros [H1 H2] x. split; auto.
    - intros Hs. split; intros x; apply Hs. }
  unfold serviceDrift.
  destruct (bool_decide_reflect (m1 = [])) as [H1|H1],
           (bool_decide_reflect (m2 = [])) as [H2|H2]; simpl.
  - split; [done|]. split; [lia|]. split; [intros _|done].
    by apply Hsame.
  - split; [by repeat constructor|]. split; [lia|].
    split; [done|]. intros Hs%Hsame. by destruct Hs.
  - split; [by repeat constructor|]. split; [lia|].
    split; [done|]. intros Hs%Hsame. by destruct Hs.
  - split; [by repeat constructor|]. split; [lia|].
    split; [done|]. intros Hs%Hsame. by destruct Hs.
Qed.

(** X11: the ways [serviceCheck] fails. A provider metadata URL that does
    not parse, or has no base, is returned as the error with the processor
    untouched. A failed fetch, a status other than 200 and a document that
    does not load each add exactly one message to the service sink (an
    error, a warning naming the status code, an error) and return the
    continue sentinel; the feeds are not looked at in any of these cases.
    No other error is ever returned. *)
Theorem serviceCheck_failures (feeds : list (list Feed)) (p : processor) :
  (∀ err, url_Parse (pmdURL p) = inr err →
     serviceCheck feeds p = (p, Fail err))
  ∧ (∀ pmd err,
       url_Parse (pmdURL p) = inl pmd → util_BaseURL pmd = inr err →
       serviceCheck feeds p = (p, Fail err))
  ∧ (∀ pmd baseURL p1 err,
       url_Parse (pmdURL p) = inl pmd → util_BaseURL pmd = inl baseURL →
       httpGet (baseURL +:+ "service.json") (useServiceSink p)
       = (p1, inr err) →
       ∃ m, Type_ m = ErrorType
            ∧ serviceCheck feeds p = (serviceEmit [m] p1, Fail errContinue))
  ∧ (∀ pmd baseURL p1 res,
       url_Parse (pmdURL p) = inl pmd → util_BaseURL pmd = inl baseURL →
       httpGet (baseURL +:+ "service.json") (useServiceSink p)
       = (p1, inl res) →
       StatusCode res ≠ StatusOK →
       ∃ m, Type_ m = WarnType ∧ ArgInt (StatusCode res) ∈ Args m
            ∧ serviceCheck feeds p = (serviceEmit [m] p1, Fail errContinue))
  ∧ (∀ pmd baseURL p1 res err,
       url_Parse (pmdURL p) = inl pmd → util_BaseURL pmd = inl baseURL →
       httpGet (baseURL +:+ "service.json") (useServiceSink p)
       = (p1, inl res) →
       StatusCode res = StatusOK →
       LoadROLIEServiceDocument (ResBody res) = inr err →
       ∃ m, Type_ m = ErrorType
            ∧ serviceCheck feeds p = (serviceEmit [m] p1, Fail errContinue))
  ∧ (∀ p' e,
       serviceCheck feeds p = (p', Fail e) →
       e = errContinue
       ∨ url_Parse (pmdURL p) = inr e
       ∨ ∃ pmd, url_Parse (pmdURL p) = inl pmd ∧ util_BaseURL pmd = inr e).
Proof.
  unfold serviceCheck, useServiceSink, mbind, M_bind, get, modify, call.
  split_and!.
  - by intros err ->.
  - by intros pmd err -> ->.
  - intros pmd baseURL p1 err -> -> ->.
    eexists (mkMessage _ _ _). by split.
  - intros pmd baseURL p1 res -> -> -> Hstatus.
    apply Z.eqb_neq in Hstatus. rewrite Hstatus.
    eexists (mkMessage _ _ _). split; [done|]. split; [|done].
    simpl. by repeat constructor.
  - intros pmd baseURL p1 res err -> -> -> -> ->.
    eexists (mkMessage _ _ _). by split.
  - intros p' e. destruct (url_Parse (pmdURL p)) as [pmd|err] eqn:Hpmd.
    2:{ intros [= _ <-]. right. by left. }
    destruct (util_BaseURL pmd) as [baseURL|err] eqn:Hbase.
    2:{ intros [= _ <-]. right. right. by exists pmd. }
    destruct (httpGet _ _) as [p1 [res|err]].
    2:{ intros [= _ <-]. by left. }
    destruct (negb (StatusCode res =? StatusOK)).
    { intros [= _ <-]. by left. }
    destruct (LoadROLIEServiceDocument (ResBody res)) as [doc|err].
    2:{ intros [= _ <-]. by left. }
    rewrite metadataFeeds_deref.
    destruct (derefURLs (mjoin feeds)) as [ffeeds|]; [|done].
    destruct (sameContentsSS _ _) as [m1 m2].
    by destruct (negb (bool_decide (length m1 = 0%nat))),
                (negb (bool_decide (length m2 = 0%nat))).
Qed.
End ServiceMore.

(** The service check of the scenario: the documents name the green feed
    differently, so the check is not silent. *)
Lemma serviceCheck_drift_demo :
  ∃ ms,
    serviceCheck Demo.scenario Demo.start
    = (serviceEmit ms (useServiceSink Demo.start), Val tt)
    ∧ ms ≠ [].
Proof.
  destruct (serviceCheck_drift (H:=Demo.externals) Demo.scenario Demo.start
              (useServiceSink Demo.start)
              (Demo.root +:+ "provider-metadata.json") Demo.root
              (@mkResponse Demo.externals StatusOK "200 OK"
                 [Demo.root +:+ "green/feed.json";
                  Demo.root +:+ "amber/feed.json"])
              (mkServiceDocument
                 (mkService
                    [mkWorkspace
                       (map mkCollection
                          [Demo.root +:+ "green/feed.json";
                           Demo.root +:+ "amber/feed.json"])]))
              ["green/feed.json"; Demo.root +:+ "amber/feed.json"])
    as (ms & Hrun & _ & _ & Hsame); try reflexivity.
  exists ms. split; [exact Hrun|]. intros Hnil.
  apply (proj1 Hsame) with (x := "green/feed.json") in Hnil.
  apply proj2 in Hnil.
  assert ("green/feed.json" ∈ ["green/feed.json";
                               Demo.root +:+ "amber/feed.json"]) as Hin
    by (by left).
  apply Hnil in Hin. vm_compute in Hin.
  apply elem_of_cons in Hin as [Heq|Hin]; [discriminate Heq|].
  apply elem_of_cons in Hin as [Heq|Hin]; [discriminate Heq|].
  by apply elem_of_nil in Hin.
Defined.

(** ** What the audit writes *)

Section AuditErrors.
Context `{Collaborators}.

Lemma pmdEmit_app (ms1 ms2 : list Message) (p : processor) :
  pmdEmit (ms1 ++ ms2) p = pmdEmit ms2 (pmdEmit ms1 p).
Proof. apply fold_left_app. Qed.

Lemma pmdEmit_labelChecker (ms : list Message) (p : processor) :
  labelChecker (pmdEmit ms p) = labelChecker p.
Proof.
  revert p. induction ms as [|m ms IH]; intros p; [done|].
  change (pmdEmit (m :: ms) p) with (pmdEmit ms (pmdEmit [m] p)).
  by rewrite IH.
Qed.

Lemma listing_loop_state (u : string) (makeAbs : Url → Url)
    (files : list AdvisoryFile) (s : gset string) (p : processor) :
  (forM (listingStep u makeAbs) s files p).1
  = pmdEmit (listingErrors u files) p.
Proof.
  revert s p. induction files as [|adv files IH]; intros s p; [done|].
  rewrite forM_cons. unfold listingStep at 1, listingErrors. simpl.
  destruct (url_Parse (AdvisoryFile_URL adv)) as [au|err]; simpl.
  - apply IH.
  - unfold invalidFeedURL, pmd_add, modify, mbind, M_bind. simpl.
    apply IH.
Qed.

Lemma phase3_feed_state (base : Url)
    (advisories : gmap (nat * nat) (option (list AdvisoryFile)))
    (a : audit) (pos : nat * nat) (feed : Feed) (p : processor)
    (ca : rolieLabelChecker) :
  labelChecker p = Some ca →
  (phase3_feed base advisories a pos feed p).1
  = pmdEmit (auditErrors advisories (pos, feed)) p.
Proof.
  intros Hca. unfold phase3_feed, auditErrors. simpl.
  destruct (URL feed) as [u|]; [|done].
  destruct (lookupFiles advisories pos) as [files|]; [|done].
  destruct (url_Parse u) as [up|err]; [|done].
  unfold mbind, M_bind. rewrite (referenceOf_inventory _ _ _ Hca).
  rewrite <- (listing_loop_state u
                (makeAbsolute (url_ResolveReference base up)) files ∅ p).
  destruct (forM _ ∅ files p) as [p1 [s|e|]]; [|done|done].
  by destruct (containsAllKeys _ _).
Qed.

(** X12: with a label checker in place, the loop of phase 3 changes nothing
    in the processor but the provider metadata sink. What it adds there are
    errors only, in the order of the feeds: one for each advisory of an
    audited feed whose URL does not parse (and one for a feed with a listing
    whose own URL does not parse), and each of them names the URL of the
    feed, not of the advisory. *)
Theorem phase3_loop_errors (base : Url)
    (advisories : gmap (nat * nat) (option (list AdvisoryFile)))
    (feeds : list (list Feed)) (a : audit) (p : processor)
    (ca : rolieLabelChecker) :
  labelChecker p = Some ca →
  ∃ a',
    rangeFeeds (phase3_feed base advisories) a feeds p
    = (pmdEmit (mjoin (map (auditErrors advisories) (feedRefs feeds))) p,
       Val a')
    ∧ ∀ m, m ∈ mjoin (map (auditErrors advisories) (feedRefs feeds)) →
           Type_ m = ErrorType
           ∧ ∃ r u, r ∈ feedRefs feeds ∧ URL r.2 = Some u
                    ∧ Args m !! 0%nat = Some (ArgStr u).
Proof.
  intros Hca.
  exists (fold_left (auditStep ca base advisories) (feedRefs feeds) a).
  split.
  - rewrite rangeFeeds_flat. generalize (feedRefs feeds) as rs.
    intros rs. revert a p Hca.
    induction rs as [|[pos feed] rs IH]; intros a p Hca; [done|].
    rewrite forM_cons. simpl.
    destruct (phase3_feed_step base advisories a pos feed p ca Hca)
      as (p1 & Hstep & _).
    pose proof (phase3_feed_state base advisories a pos feed p ca Hca)
      as Hstate.
    rewrite Hstep in *. simpl in Hstate. subst p1.
    rewrite pmdEmit_app. apply IH. by rewrite pmdEmit_labelChecker.
  - intros m (ms & Hm & (r & -> & Hr)%list_elem_of_fmap)%list_elem_of_join.
    unfold auditErrors in Hm.
    destruct (URL r.2) as [u|] eqn:Hu; [|by apply elem_of_nil in Hm].
    destruct (lookupFiles advisories r.1) as [files|];
      [|by apply elem_of_nil in Hm].
    assert (Type_ m = ErrorType ∧ Args m !! 0%nat = Some (ArgStr u))
      as [Hty Harg].
    { destruct (url_Parse u) as [up|err].
      - unfold listingErrors in Hm.
        apply list_elem_of_omap in Hm as (adv & _ & Hadv).
        destruct (url_Parse (AdvisoryFile_URL adv)); [done|].
        by injection Hadv as <-.
      - by apply list_elem_of_singleton in Hm as ->. }
    split; [done|]. by exists r, u.
Qed.
End AuditErrors.

(** The audit loop on the scenario, where every URL parses: nothing is
    written at all. *)
Lemma phase3_loop_errors_demo :
  ∃ a',
    rangeFeeds (phase3_feed (H:=Demo.externals)
                  (Demo.root +:+ "provider-metadata.json") Demo.fetched)
      (mkAudit ∅ false false false) Demo.scenario
      (set_labelChecker (Some Demo.amberChecker) Demo.start)
    = (set_labelChecker (Some Demo.amberChecker) Demo.start, Val a').
Proof.
  destruct (phase3_loop_errors (H:=Demo.externals)
              (Demo.root +:+ "provider-metadata.json") Demo.fetched
              Demo.scenario (mkAudit ∅ false false false)
              (set_labelChecker (Some Demo.amberChecker) Demo.start)
              Demo.amberChecker eq_refl) as (a' & Hrun & _).
  exists a'. exact Hrun.
Defined.

(** ** Ranks of arbitrary labels *)

(** X13: over all strings, [tlpLevel] gives a positive rank to the four
    colours only, each its own: rank 1 means White, 2 Green, 3 Amber, 4 Red,
    and rank 0 means any other string. So two labels of the same positive
    rank are the same label, while all labels outside the four colours share
    rank 0 with Unlabeled. *)
Theorem tlpLevel_colours (label : TLPLabel) :
  (tlpLevel label = 1 ↔ label = TLPLabelWhite)
  ∧ (tlpLevel label = 2 ↔ label = TLPLabelGreen)
  ∧ (tlpLevel label = 3 ↔ label = TLPLabelAmber)
  ∧ (tlpLevel label = 4 ↔ label = TLPLabelRed)
  ∧ (tlpLevel label = 0
     ↔ label ∉ [TLPLabelWhite; TLPLabelGreen; TLPLabelAmber; TLPLabelRed])
  ∧ (∀ label', tlpLevel label = tlpLevel label' → 0 < tlpLevel label →
       label = label').
Proof.
  assert (Hcases : ∀ l,
            (l = TLPLabelWhite ∧ tlpLevel l = 1)
            ∨ (l = TLPLabelGreen ∧ tlpLevel l = 2)
            ∨ (l = TLPLabelAmber ∧ tlpLevel l = 3)
            ∨ (l = TLPLabelRed ∧ tlpLevel l = 4)
            ∨ ((l ∉ [TLPLabelWhite; TLPLabelGreen; TLPLabelAmber;
                     TLPLabelRed])
               ∧ tlpLevel l = 0)).
  { intros l. unfold tlpLevel.
    destruct (String.eqb_spec l TLPLabelWhite) as [->|HW]; [by left|].
    destruct (String.eqb_spec l TLPLabelGreen) as [->|HG];
      [right; by left|].
    destruct (String.eqb_spec l TLPLabelAmber) as [->|HA];
      [right; right; by left|].
    destruct (String.eqb_spec l TLPLabelRed) as [->|HR];
      [right; right; right; by left|].
    do 4 right. split; [|done]. intros Hin.
    repeat (apply elem_of_cons in Hin as [?|Hin]; [done|]).
    by apply elem_of_nil in Hin. }
  assert (Hcolour : ∀ l c k,
            c ∈ [TLPLabelWhite; TLPLabelGreen; TLPLabelAmber; TLPLabelRed] →
            tlpLevel c = k → (tlpLevel l = k ↔ l = c)).
  { intros l c k Hc Hk. split; [|by intros ->].
    intros Hl. rewrite <- Hk in Hl. clear Hk.
    destruct (Hcases l) as [[Hl1 Hv]|[[Hl1 Hv]|[[Hl1 Hv]|[[Hl1 Hv]|[Hl1 Hv]]]]];
      rewrite Hv in Hl;
      repeat (apply elem_of_cons in Hc as [->|Hc];
              [by first [vm_compute in Hl; discriminate Hl | subst l]|]);
      by apply elem_of_nil in Hc. }
  split_and!.
  - apply Hcolour; [by repeat constructor|done].
  - apply Hcolour; [by repeat constructor|done].
  - apply Hcolour; [by repeat constructor|done].
  - apply Hcolour; [by repeat constructor|done].
  - destruct (Hcases label)
      as [[Hl Hv]|[[Hl Hv]|[[Hl Hv]|[[Hl Hv]|[Hl Hv]]]]]; rewrite Hv;
      try (by split);
      (split; [done|]; intros Hout; destruct Hout; subst label;
       by repeat constructor).
  - intros label' Heq Hpos.
    destruct (Hcases label)
      as [[Hl Hv]|[[Hl Hv]|[[Hl Hv]|[[Hl Hv]|[Hl Hv]]]]];
      rewrite Hv in Heq, Hpos; [| | | |lia]; subst label; symmetry;
      symmetry in Heq; revert Heq;
      apply Hcolour; first [by repeat constructor | done].
Qed.

(** ** The audit as a whole *)

Section AuditWhole.
Context `{Collaborators}.

(** X14: at the end of the loop of phase 3, started with a label checker in
    place, a label is in [hasSummary] exactly if some feed of the provider
    metadata with a URL that parses and a stored listing declares that label
    and lists, in absolute form, every advisory recorded under it. *)
Theorem phase3_loop_summary (base : Url)
    (advisories : gmap (nat * nat) (option (list AdvisoryFile)))
    (feeds : list (list Feed)) (p : processor) (ca : rolieLabelChecker)
    (l : TLPLabel) :
  labelChecker p = Some ca →
  ∃ p' a,
    rangeFeeds (phase3_feed base advisories) (mkAudit ∅ false false false)
      feeds p = (p', Val a)
    ∧ (l ∈ hasSummary a
       ↔ ∃ pos feed u files up,
           (pos, feed) ∈ feedRefs feeds ∧ URL feed = Some u
           ∧ lookupFiles advisories pos = Some files
           ∧ url_Parse u = inl up ∧ tlpLabel (TLPLabel_ feed) = l
           ∧ inventory ca l
             ⊆ absoluteListing (url_ResolveReference base up) files).
Proof.
  intros Hca.
  destruct (phase3_loop_hasSummary base advisories feeds p ca l Hca)
    as (p' & a & Hloop & Hiff).
  exists p', a. split; [done|]. rewrite Hiff. split.
  - intros ([pos feed] & u & files & up & ?). by exists pos, feed, u, files, up.
  - intros (pos & feed & u & files & up & ?).
    by exists (pos, feed), u, files, up.
Qed.

(** X15: phase 3 as a whole, started with a label checker in place, emits
    the warning that a label lacks a covering feed exactly for those of the
    five labels that have advisories recorded and for which no audited feed
    declared with the label lists all of them; a label outside the five
    never gets the warning. *)
Theorem phase3_completeness_warning (base : Url)
    (advisories : gmap (nat * nat) (option (list AdvisoryFile)))
    (feeds : list (list Feed)) (p : processor) (ca : rolieLabelChecker) :
  labelChecker p = Some ca →
  ∃ p1 errs warns,
    phase3 base advisories feeds p = (feedEmit (errs ++ warns) p1, Val tt)
    ∧ pmdOnly p p1
    ∧ Forall (λ m, Type_ m = ErrorType) errs
    ∧ ∀ l,
        noSummaryFeed l ∈ warns
        ↔ l ∈ allLabels ∧ inventory ca l ≠ ∅
          ∧ ¬ ∃ pos feed u files up,
                (pos, feed) ∈ feedRefs feeds ∧ URL feed = Some u
                ∧ lookupFiles advisories pos = Some files
                ∧ url_Parse u = inl up ∧ tlpLabel (TLPLabel_ feed) = l
                ∧ inventory ca l
                  ⊆ absoluteListing (url_ResolveReference base up) files.
Proof.
  intros Hca.
  destruct (phase3_loop base advisories feeds (mkAudit ∅ false false false)
              p ca Hca) as (p1 & Hloop & Hp1).
  set (a := fold_left _ _ _) in Hloop.
  exists p1, (if publicSeen a then [] else [noPublicFeed]),
    (summaryWarnings ca a).
  split.
  { unfold phase3, mbind, M_bind. rewrite Hloop.
    apply phase3_report_emits. by rewrite (pmdOnly_labelChecker _ _ Hp1). }
  split; [done|].
  split; [destruct (publicSeen a); by repeat constructor|].
  intros l.
  assert (Hsum : l ∈ hasSummary a
                 ↔ ∃ pos feed u files up,
                     (pos, feed) ∈ feedRefs feeds ∧ URL feed = Some u
                     ∧ lookupFiles advisories pos = Some files
                     ∧ url_Parse u = inl up ∧ tlpLabel (TLPLabel_ feed) = l
                     ∧ inventory ca l
                       ⊆ absoluteListing (url_ResolveReference base up)
                           files).
  { subst a. rewrite audit_hasSummary. simpl. split.
    - intros [Hin|([pos feed] & u & files & up & ?)];
        [by apply not_elem_of_empty in Hin|].
      by exists pos, feed, u, files, up.
    - intros (pos & feed & u & files & up & ?). right.
      by exists (pos, feed), u, files, up. }
  rewrite <- Hsum. unfold summaryWarnings. rewrite list_elem_of_fmap. split.
  - intros (l' & [= <-] & (Hout & Hne)%list_elem_of_filter). tauto.
  - intros (Hl & Hne & Hout). exists l. split; [done|].
    apply list_elem_of_filter. tauto.
Qed.
End AuditWhole.

(** The loop of phase 3 on the scenario: Amber ends up covered. *)
Lemma phase3_loop_summary_demo :
  ∃ p' a,
    rangeFeeds (phase3_feed (H:=Demo.externals)
                  (Demo.root +:+ "provider-metadata.json") Demo.fetched)
      (mkAudit ∅ false false false) Demo.scenario
      (set_labelChecker (Some Demo.amberChecker) Demo.start) = (p', Val a)
    ∧ TLPLabelAmber ∈ hasSummary a.
Proof.
  destruct (phase3_loop_summary (H:=Demo.externals)
              (Demo.root +:+ "provider-metadata.json") Demo.fetched
              Demo.scenario
              (set_labelChecker (Some Demo.amberChecker) Demo.start)
              Demo.amberChecker TLPLabelAmber eq_refl)
    as (p' & a & Hrun & Hiff).
  exists p', a. split; [exact Hrun|]. apply Hiff.
  exists (1%nat, 0%nat),
    (Demo.feed TLPLabelAmber (Demo.root +:+ "amber/feed.json")),
    (Demo.root +:+ "amber/feed.json"), ["y.json"],
    (Demo.root +:+ "amber/feed.json").
  split; [vm_compute; right; left|]. split_and!; reflexivity.
Defined.

(** Phase 3 on the scenario: nothing but errors and warnings reach the feed
    sink, and Amber, being covered, gets no warning. *)
Lemma phase3_completeness_warning_demo :
  ∃ p1 errs warns,
    phase3 (H:=Demo.externals) (Demo.root +:+ "provider-metadata.json")
      Demo.fetched Demo.scenario
      (set_labelChecker (Some Demo.amberChecker) Demo.start)
    = (feedEmit (errs ++ warns) p1, Val tt)
    ∧ noSummaryFeed TLPLabelAmber ∉ warns.
Proof.
  destruct (phase3_completeness_warning (H:=Demo.externals)
              (Demo.root +:+ "provider-metadata.json") Demo.fetched
              Demo.scenario
              (set_labelChecker (Some Demo.amberChecker) Demo.start)
              Demo.amberChecker eq_refl)
    as (p1 & errs & warns & Hrun & _ & _ & Hiff).
  exists p1, errs, warns. split; [exact Hrun|].
  intros (_ & _ & Hnone)%Hiff. apply Hnone.
  exists (1%nat, 0%nat),
    (Demo.feed TLPLabelAmber (Demo.root +:+ "amber/feed.json")),
    (Demo.root +:+ "amber/feed.json"), ["y.json"],
    (Demo.root +:+ "amber/feed.json").
  split; [vm_compute; right; left|]. split_and!; reflexivity.
Defined.

(** ** What phase 1 stores *)

Section FetchMore.
Context `{Collaborators}.

Lemma phase1_feed_returned (base : Url)
    (advisories fetched : gmap (nat * nat) (option (list AdvisoryFile)))
    (pos : nat * nat) (feed : Feed) (p p' : processor) :
  phase1_feed base advisories pos feed p = (p', Val fetched) →
  fetched = advisories
  ∨ ∃ u up advs,
      URL feed = Some u ∧ url_Parse u = inl up
      ∧ rolieFeedEntries (url_String (url_ResolveReference base up))
          (checkTLS (url_String (url_ResolveReference base up)) p)
        = (p', (advs, None))
      ∧ fetched = <[pos := advs]> advisories.
Proof.
  unfold phase1_feed.
  destruct (URL feed) as [u|] eqn:Hu; [|intros [= _ <-]; by left].
  destruct (url_Parse u) as [up|err] eqn:Hp; [|intros [= _ <-]; by left].
  unfold mbind, M_bind, modify, call.
  destruct (rolieFeedEntries _ _) as [p1 [advs [e|]]] eqn:Hfetch.
  - destruct (decide (e ≠ errContinue)); [done|]. intros [= _ <-]. by left.
  - intros [= <- <-]. right. by exists u, up, advs.
Qed.

Lemma phase1_loop_returned (base : Url) (rs : list (nat * nat * Feed))
    (advisories fetched : gmap (nat * nat) (option (list AdvisoryFile)))
    (p p' : processor) (pos : nat * nat)
    (files : option (list AdvisoryFile)) :
  feedLoop (phase1_feed base) advisories rs p = (p', Val fetched) →
  fetched !! pos = Some files →
  advisories !! pos = Some files
  ∨ ∃ feed u up q q',
      (pos, feed) ∈ rs ∧ URL feed = Some u ∧ url_Parse u = inl up
      ∧ rolieFeedEntries (url_String (url_ResolveReference base up))
          (checkTLS (url_String (url_ResolveReference base up)) q)
        = (q', (files, None)).
Proof.
  unfold feedLoop. revert advisories p.
  induction rs as [|[pos1 feed1] rs IH]; intros advisories p.
  - intros [= _ <-]. by left.
  - rewrite forM_cons. simpl.
    destruct (phase1_feed base advisories pos1 feed1 p) as [p1 [advs1|e|]]
      eqn:Hstep; [|done|done].
    intros Hrest Hin.
    destruct (IH advs1 p1 Hrest Hin)
      as [Hold|(feed & u & up & q & q' & Hr & ?)].
    + apply phase1_feed_returned in Hstep
        as [->|(u & up & advs & Hu & Hp & Hfetch & ->)]; [by left|].
      destruct (decide (pos1 = pos)) as [->|Hne].
      * rewrite lookup_insert_eq in Hold. injection Hold as ->.
        right. exists feed1, u, up, p, p1. split; [by left|done].
      * left. by rewrite lookup_insert_ne in Hold.
    + right. exists feed, u, up, q, q'. split; [by right|done].
Qed.

(** X16: a listing found in the result of phase 1 under the position of a
    feed is a listing [rolieFeedEntries] returned without error for the URL
    of that very feed, resolved against the provider metadata URL. So a
    feed whose resolved URL makes [rolieFeedEntries] fail in every state of
    the processor has no listing, and phases 2 and 3 pass over it. *)
Theorem phase1_stored_listing (base : Url) (feeds : list (list Feed))
    (p0 p1 : processor)
    (fetched : gmap (nat * nat) (option (list AdvisoryFile)))
    (pos : nat * nat) (feed : Feed) :
  rangeFeeds (phase1_feed base) ∅ feeds p0 = (p1, Val fetched) →
  (pos, feed) ∈ feedRefs feeds →
  (∀ files,
     fetched !! pos = Some files →
     ∃ u up q q',
       URL feed = Some u ∧ url_Parse u = inl up
       ∧ rolieFeedEntries (url_String (url_ResolveReference base up))
           (checkTLS (url_String (url_ResolveReference base up)) q)
         = (q', (files, None)))
  ∧ (∀ u up,
       URL feed = Some u → url_Parse u = inl up →
       (∀ q, (rolieFeedEntries (url_String (url_ResolveReference base up))
                q).2.2 ≠ None) →
       lookupFiles fetched pos = None
       ∧ ∀ a q,
           phase2_feed base fetched tt pos feed q = (q, Val tt)
           ∧ phase3_feed base fetched a pos feed q = (q, Val a)).
Proof.
  rewrite rangeFeeds_flat. intros Hloop Hfeed.
  assert (Hret : ∀ files,
            fetched !! pos = Some files →
            ∃ u up q q',
              URL feed = Some u ∧ url_Parse u = inl up
              ∧ rolieFeedEntries (url_String (url_ResolveReference base up))
                  (checkTLS (url_String (url_ResolveReference base up)) q)
                = (q', (files, None))).
  { intros files Hfiles.
    destruct (phase1_loop_returned base (feedRefs feeds) ∅ fetched p0 p1 pos
                files Hloop Hfiles)
      as [Hempty|(feed' & u & up & q & q' & Hfeed' & Hu & Hp & Hfetch)].
    - by rewrite lookup_empty in Hempty.
    - rewrite <- (feedRefs_functional feeds pos feed feed') in Hu by done.
      by exists u, up, q, q'. }
  split; [done|]. intros u up Hu Hp Hfail.
  assert (fetched !! pos = None) as Hnone.
  { destruct (fetched !! pos) as [files|] eqn:Hfiles; [|done].
    destruct (Hret files eq_refl) as (u' & up' & q & q' & Hu' & Hp' & Hfetch).
    rewrite Hu in Hu'. injection Hu' as <-.
    rewrite Hp in Hp'. injection Hp' as <-.
    destruct (Hfail (checkTLS (url_String (url_ResolveReference base up)) q)).
    by rewrite Hfetch. }
  assert (lookupFiles fetched pos = None) as Hfiles.
  { unfold lookupFiles. by rewrite Hnone. }
  split; [done|]. intros a q. unfold phase2_feed, phase3_feed.
  by rewrite Hu, Hfiles.
Qed.
End FetchMore.

(** Phase 1 on a provider metadata whose only feed cannot be fetched. *)
Lemma phase1_stored_listing_demo :
  lookupFiles (H:=Demo.externals) ∅ (0%nat, 0%nat) = None.
Proof.
  destruct (phase1_stored_listing (H:=Demo.externals)
              (Demo.root +:+ "provider-metadata.json")
              [[Demo.feed TLPLabelAmber "missing/feed.json"]] Demo.start
              (pmdEmit
                 [mkMessage ErrorType "Cannot fetch feed %s: %v"
                    [ArgStr (Demo.root +:+ "missing/feed.json");
                     ArgErr (errOther "not found")]] Demo.start)
              ∅ (0%nat, 0%nat)
              (Demo.feed TLPLabelAmber "missing/feed.json"))
    as [_ Hskip].
  - vm_compute. reflexivity.
  - vm_compute. left.
  - destruct (Hskip "missing/feed.json" "missing/feed.json"
                eq_refl eq_refl) as [Hnone _]; [|exact Hnone].
    intros q. vm_compute. discriminate.
Defined.
